(** * DenseMatrix: the dense element-matrix kernel of include/math/dense_matrix.h

    A shallow embedding of the [DenseMatrix<T>] class template and the
    properties of its storage, accessors, elementwise algebra and norms.

    Conventions of the embedding.
    - [unsigned int] values are integers in [0, 2^32); every product and sum
      the source computes in that type is written with its wrap-around
      ([UInt.mul], [UInt.add]).
    - [std::vector<T>] is a [list T]; [operator[]] past the end is undefined
      behaviour in C++ and is the failure [OutOfRange] here.
    - [assert] is active (a build without NDEBUG); a failed assertion is the
      failure [AssertionFailed].
    - The scalar type [T] and the type [Real] are given by an interface
      ([Scalar]); nothing is assumed about their arithmetic unless a theorem
      says so.
    - Loop counters of the source are [unsigned int] compared against
      [_val.size()]; buffers are shorter than 2^32 elements, which is what
      [resize] produces. *)

From Stdlib Require Import ZArith Lia.
From Stdlib Require QArith Qabs.
From Stdlib Require Import Qfield.
From stdpp Require Import base tactics option list list_numbers gmap.

Local Open Scope Z_scope.

(** ** Arithmetic of [unsigned int] *)

Module UInt.

Definition modulus : Z := 2 ^ 32.

Definition wrap (z : Z) : Z := z mod modulus.

Definition mul (a b : Z) : Z := wrap (a * b).

Definition add (a b : Z) : Z := wrap (a + b).

Definition in_range (z : Z) : Prop := 0 <= z < modulus.

Lemma wrap_small z : in_range z -> wrap z = z.
Proof. unfold in_range, wrap. intros H. apply Z.mod_small. exact H. Qed.

Lemma wrap_in_range z : in_range (wrap z).
Proof. unfold in_range, wrap, modulus. apply Z.mod_pos_bound. lia. Qed.

End UInt.

(** ** Results of calls *)

Inductive failure : Type :=
| AssertionFailed      (* an [assert] of the source did not hold *)
| OutOfRange           (* [std::vector::operator[]] past the end *)
| SingularMatrixError  (* zero pivot, raised by the LU routines *)
| DecompositionStateError (* solve on factors of the other kind *)
| DimensionError.      (* shapes that do not fit, raised by the solve *)

Inductive outcome (A : Type) : Type :=
| Ok (a : A)
| Err (e : failure).

Arguments Ok {A} a.
Arguments Err {A} e.

#[global] Instance outcome_ret : MRet outcome := @Ok.

#[global] Instance outcome_bind : MBind outcome :=
  fun A B f o => match o with Ok a => f a | Err e => Err e end.

Definition assert (c : bool) : outcome unit :=
  if c then Ok tt else Err AssertionFailed.

(** [v[k]] on a vector. *)
Definition index {A} (v : list A) (k : nat) : outcome A :=
  match v !! k with
  | Some x => Ok x
  | None => Err OutOfRange
  end.

(** A loop over the indices [l] that threads the loop-carried value and
    stops at the first failure. *)
Fixpoint foldM {A B} (f : B -> A -> outcome B) (l : list A) (b : B)
  : outcome B :=
  match l with
  | [] => Ok b
  | a :: l' => b' ← f b a; foldM f l' b'
  end.

(** ** The scalar interface *)

Class Scalar (T Real : Type) : Type := {
  s_zero : T;                      (* the value [0.] converted to [T] *)
  s_one : T;                       (* the value [1] converted to [T] *)
  s_add : T -> T -> T;
  s_sub : T -> T -> T;
  s_mul : T -> T -> T;
  s_div : T -> T -> T;
  numerically_zero : T -> bool;    (* pivot test of the LU routines *)
  genius_real : T -> Real;         (* real part *)
  s_abs : T -> Real;               (* [std::abs] *)
  r_zero : Real;                   (* the value [0.] *)
  r_add : Real -> Real -> Real;
  r_lt : Real -> Real -> bool      (* [a < b]; [a > b] is [r_lt b a] *)
}.

Inductive DecompositionType : Type := LU | CHOLESKY | NONE.

Section dense_matrix.

Context {T Real : Type} `{Scalar T Real}.

(** The members of a [DenseMatrix<T>] object.

    Modelled from the spec: [_m] and [_n] are members of the base class
    [DenseMatrixBase<T>] (dense_matrix_base.h), the storage base that holds
    the row and column extents and whose constructor stores them. *)
Record DenseMatrix : Type := {
  _m : Z;
  _n : Z;
  _val : list T;
  _decomposition_type : DecompositionType
}.

Definition size (M : DenseMatrix) : Z := Z.of_nat (length (_val M)).

Definition with_val (M : DenseMatrix) (v : list T) : DenseMatrix :=
  {| _m := _m M; _n := _n M; _val := v;
     _decomposition_type := _decomposition_type M |}.

(** [std::vector<T>::resize(k)]: keeps the first [k] elements and appends
    value-initialised ones (zero for the arithmetic scalar types). *)
Definition vector_resize (k : nat) (v : list T) : list T :=
  take k v ++ replicate (k - length v)%nat s_zero.

(** [std::fill (v.begin(), v.end(), 0.)] *)
Definition fill_zero (v : list T) : list T := (fun _ => s_zero) <$> v.

Definition zero (M : DenseMatrix) : DenseMatrix :=
  {| _m := _m M; _n := _n M; _val := fill_zero (_val M);
     _decomposition_type := NONE |}.

Definition resize (m n : Z) (M : DenseMatrix) : DenseMatrix :=
  zero {| _m := m; _n := n;
          _val := vector_resize (Z.to_nat (UInt.mul m n)) (_val M);
          _decomposition_type := NONE |}.

(** [DenseMatrix(m, n)]: the base class stores the extents, the tag is
    initialised to [NONE], the body calls [resize]. *)
Definition DenseMatrix_ctor (m n : Z) : DenseMatrix :=
  resize m n {| _m := m; _n := n; _val := [];
                _decomposition_type := NONE |}.

(** [DenseMatrix(const DenseMatrix&)]: the base class stores the extents and
    the body copies the buffer; [_decomposition_type] has no initialiser, so
    it keeps the indeterminate value [indet] of the fresh object. *)
Definition DenseMatrix_copy_ctor (indet : DecompositionType)
    (other_matrix : DenseMatrix) : DenseMatrix :=
  {| _m := _m other_matrix; _n := _n other_matrix;
     _val := _val other_matrix;
     _decomposition_type := indet |}.

(** [operator=] *)
Definition op_assign (this other_matrix : DenseMatrix) : DenseMatrix :=
  {| _m := _m other_matrix; _n := _n other_matrix;
     _val := _val other_matrix;
     _decomposition_type := _decomposition_type other_matrix |}.

(** [operator()]: the three assertions, then the row-major offset
    [i * _n + j] in [unsigned int] arithmetic.  The result is the position
    of the referenced element in the buffer. *)
Definition element_ref (M : DenseMatrix) (i j : Z) : outcome nat :=
  assert (UInt.mul i j <? size M);;
  assert (i <? _m M);;
  assert (j <? _n M);;
  let k := UInt.add (UInt.mul i (_n M)) j in
  if k <? size M then Ok (Z.to_nat k) else Err OutOfRange.

(** Reading through [operator()]. *)
Definition op_call (M : DenseMatrix) (i j : Z) : outcome T :=
  k ← element_ref M i j; index (_val M) k.

(** Writing through the reference returned by the non-const [operator()]. *)
Definition op_call_write (M : DenseMatrix) (i j : Z) (x : T)
  : outcome DenseMatrix :=
  k ← element_ref M i j; Ok (with_val M (<[k := x]> (_val M))).

Definition transpose (M : DenseMatrix) (i j : Z) : outcome T := op_call M j i.

(** [scale]: [_val[i] *= factor] for every index. *)
Definition scale (factor : T) (M : DenseMatrix) : DenseMatrix :=
  with_val M
    (fold_left (fun v i => alter (fun x => s_mul x factor) i v)
               (seq 0 (length (_val M))) (_val M)).

Definition op_mul_assign (factor : T) (M : DenseMatrix) : DenseMatrix :=
  scale factor M.

(** [add]: [_val[i] += factor * mat._val[i]] for every index of the
    receiver; the argument's buffer is read without any check.  When [mat]
    is the receiver itself, iteration [i] reads element [i] before updating
    it, so the argument's buffer as it was at the call gives the same
    values. *)
Definition add (factor : T) (M mat : DenseMatrix) : outcome DenseMatrix :=
  v ← foldM (fun v i =>
               y ← index (_val mat) i;
               x ← index v i;
               Ok (<[i := s_add x (s_mul factor y)]> v))
            (seq 0 (length (_val M))) (_val M);
  Ok (with_val M v).

(** [operator+=]: [_val[i] += mat._val[i]]. *)
Definition op_add_assign (M mat : DenseMatrix) : outcome DenseMatrix :=
  v ← foldM (fun v i =>
               y ← index (_val mat) i;
               x ← index v i;
               Ok (<[i := s_add x y]> v))
            (seq 0 (length (_val M))) (_val M);
  Ok (with_val M v).

(** [min] and [max] *)
Definition min (M : DenseMatrix) : outcome Real :=
  assert (negb (_m M =? 0));;
  assert (negb (_n M =? 0));;
  x ← op_call M 0 0;
  foldM (fun my_min i =>
           foldM (fun my_min j =>
                    c ← op_call M i j;
                    let current := genius_real c in
                    Ok (if r_lt my_min current then my_min else current))
                 (seqZ 0 (_n M)) my_min)
        (seqZ 0 (_m M)) (genius_real x).

Definition max (M : DenseMatrix) : outcome Real :=
  assert (negb (_m M =? 0));;
  assert (negb (_n M =? 0));;
  x ← op_call M 0 0;
  foldM (fun my_max i =>
           foldM (fun my_max j =>
                    c ← op_call M i j;
                    let current := genius_real c in
                    Ok (if r_lt current my_max then my_max else current))
                 (seqZ 0 (_n M)) my_max)
        (seqZ 0 (_m M)) (genius_real x).

(** [l1_norm] and [linfty_norm] *)
Definition l1_norm (M : DenseMatrix) : outcome Real :=
  assert (negb (_m M =? 0));;
  assert (negb (_n M =? 0));;
  columnsum ← foldM (fun columnsum i =>
                       x ← op_call M i 0; Ok (r_add columnsum (s_abs x)))
                    (seqZ 0 (_m M)) r_zero;
  foldM (fun my_max j =>
           columnsum ← foldM (fun columnsum i =>
                                x ← op_call M i j;
                                Ok (r_add columnsum (s_abs x)))
                             (seqZ 0 (_m M)) r_zero;
           Ok (if r_lt columnsum my_max then my_max else columnsum))
        (seqZ 1 (_n M - 1)) columnsum.

Definition linfty_norm (M : DenseMatrix) : outcome Real :=
  assert (negb (_m M =? 0));;
  assert (negb (_n M =? 0));;
  rowsum ← foldM (fun rowsum j =>
                    x ← op_call M 0 j; Ok (r_add rowsum (s_abs x)))
                 (seqZ 0 (_n M)) r_zero;
  foldM (fun my_max i =>
           rowsum ← foldM (fun rowsum j =>
                             x ← op_call M i j;
                             Ok (r_add rowsum (s_abs x)))
                          (seqZ 0 (_n M)) r_zero;
           Ok (if r_lt rowsum my_max then my_max else rowsum))
        (seqZ 1 (_m M - 1)) rowsum.

(** ** [swap]

    The receiver and the argument are references to objects; they live in a
    store keyed by address so that the statements of [swap] run one after the
    other on the store, also when both references name the same object. *)

Definition set_m (x : Z) (M : DenseMatrix) : DenseMatrix :=
  {| _m := x; _n := _n M; _val := _val M;
     _decomposition_type := _decomposition_type M |}.

Definition set_n (x : Z) (M : DenseMatrix) : DenseMatrix :=
  {| _m := _m M; _n := x; _val := _val M;
     _decomposition_type := _decomposition_type M |}.

Definition set_val (x : list T) (M : DenseMatrix) : DenseMatrix :=
  with_val M x.

Definition set_decomposition_type (x : DecompositionType) (M : DenseMatrix)
  : DenseMatrix :=
  {| _m := _m M; _n := _n M; _val := _val M; _decomposition_type := x |}.

#[global] Instance DenseMatrix_inhabited : Inhabited DenseMatrix :=
  populate {| _m := 0; _n := 0; _val := [];
              _decomposition_type := NONE |}.

(** [tmp = p.f; p.f = q.f; q.f = tmp], the shape shared by [std::swap] on
    the extents, [vector::swap] on the buffers and the hand-written exchange
    of the tags. *)
Definition exchange {A} (get : DenseMatrix -> A)
    (set : A -> DenseMatrix -> DenseMatrix)
    (p q : nat) (st : gmap nat DenseMatrix) : gmap nat DenseMatrix :=
  let tmp := get (st !!! p) in
  let st1 := alter (set (get (st !!! q))) p st in
  alter (set tmp) q st1.

Definition swap (this other_matrix : nat) (st : gmap nat DenseMatrix)
  : gmap nat DenseMatrix :=
  let st := exchange _m set_m this other_matrix st in
  let st := exchange _n set_n this other_matrix st in
  let st := exchange _val set_val this other_matrix st in
  exchange _decomposition_type set_decomposition_type this other_matrix st.

(** ** LU decomposition and solve

    The header only declares [lu_solve], [_lu_decompose] and
    [_lu_back_substitute]; their bodies are in dense_matrix.C.  The
    right-hand side and solution vectors are lists indexed like [_val]. *)

(** Modelled from the spec: the row exchange of partial pivoting (section
    4.2, the selected row is swapped into position), which is part of the
    missing body of [_lu_decompose]. *)
Definition swap_rows (M : DenseMatrix) (r1 r2 : Z) : outcome DenseMatrix :=
  foldM (fun M c =>
           a ← op_call M r1 c;
           b ← op_call M r2 c;
           M ← op_call_write M r1 c b;
           op_call_write M r2 c a)
        (seqZ 0 (_n M)) M.

(** Modelled from the spec: the pivot search of the missing body of
    [_lu_decompose] (section 4.2): the row with the largest-magnitude pivot
    candidate in column [k], from row [k] downward. *)
Definition largest_pivot_row (M : DenseMatrix) (k : Z) : outcome Z :=
  d ← op_call M k k;
  best ← foldM (fun best r =>
                  a ← op_call M r k;
                  Ok (if r_lt (snd best) (s_abs a) then (r, s_abs a) else best))
               (seqZ (k + 1) (_m M - (k + 1))) (k, s_abs d);
  Ok (fst best).

(** Modelled from the spec: the elimination below the pivot [d] of column
    [k] in the missing body of [_lu_decompose] (section 4.2): the multiplier
    is stored in the lower triangle and the row of the pivot, scaled by it,
    is subtracted from the rest of the row. *)
Definition eliminate (M : DenseMatrix) (k : Z) (d : T) : outcome DenseMatrix :=
  foldM (fun M r =>
           a ← op_call M r k;
           let fact := s_div a d in
           M ← op_call_write M r k fact;
           foldM (fun M c =>
                    x ← op_call M r c;
                    u ← op_call M k c;
                    op_call_write M r c (s_sub x (s_mul fact u)))
                 (seqZ (k + 1) (_n M - (k + 1))) M)
        (seqZ (k + 1) (_m M - (k + 1))) M.

(** Modelled from the spec: one elimination step of the missing body of
    [_lu_decompose] (section 4.2): with [partial_pivot] the largest candidate
    is swapped into row [k] and the exchange is recorded; a (numerically)
    zero pivot candidate fails with SingularMatrixError. *)
Definition lu_step (partial_pivot : bool) (st : DenseMatrix * list Z) (k : Z)
  : outcome (DenseMatrix * list Z) :=
  st ← (if partial_pivot
        then p ← largest_pivot_row (fst st) k;
             M ← swap_rows (fst st) k p;
             Ok (M, snd st ++ [p])
        else Ok st);
  d ← op_call (fst st) k k;
  if numerically_zero d then Err SingularMatrixError
  else M ← eliminate (fst st) k d; Ok (M, snd st).

(** Modelled from the spec: [_lu_decompose], declared in the header and
    defined in the missing dense_matrix.C (section 4.2): Gaussian elimination
    in place, column by column; the result holds the combined factors, is
    tagged [LU], and comes with the recorded row exchanges. *)
Definition _lu_decompose (partial_pivot : bool) (M : DenseMatrix)
  : outcome (DenseMatrix * list Z) :=
  st ← foldM (lu_step partial_pivot) (seqZ 0 (_m M)) (M, []);
  Ok (set_decomposition_type LU (fst st), snd st).

(** Modelled from the spec: the replay of the recorded row exchanges on the
    right-hand side, part of the missing body of [_lu_back_substitute]
    (section 4.2). *)
Definition permute_rhs (pivots : list Z) (b : list T) : outcome (list T) :=
  foldM (fun b kp =>
           x ← index b (fst kp);
           y ← index b (Z.to_nat (snd kp));
           Ok (<[Z.to_nat (snd kp) := x]> (<[fst kp := y]> b)))
        (zip (seq 0 (length pivots)) pivots) b.

(** Modelled from the spec: forward substitution with the unit lower
    triangle, part of the missing body of [_lu_back_substitute]
    (section 4.2). *)
Definition forward_substitute (M : DenseMatrix) (b : list T)
  : outcome (list T) :=
  foldM (fun y i =>
           bi ← index y (Z.to_nat i);
           s ← foldM (fun s j =>
                        l ← op_call M i j;
                        yj ← index y (Z.to_nat j);
                        Ok (s_sub s (s_mul l yj)))
                     (seqZ 0 i) bi;
           Ok (<[Z.to_nat i := s]> y))
        (seqZ 0 (_m M)) b.

(** Modelled from the spec: backward substitution with the upper triangle,
    part of the missing body of [_lu_back_substitute] (section 4.2). *)
Definition backward_substitute (M : DenseMatrix) (y : list T)
  : outcome (list T) :=
  foldM (fun x i =>
           yi ← index x (Z.to_nat i);
           s ← foldM (fun s j =>
                        u ← op_call M i j;
                        xj ← index x (Z.to_nat j);
                        Ok (s_sub s (s_mul u xj)))
                     (seqZ (i + 1) (_n M - (i + 1))) yi;
           d ← op_call M i i;
           Ok (<[Z.to_nat i := s_div s d]> x))
        (reverse (seqZ 0 (_m M))) y.

(** Modelled from the spec: [_lu_back_substitute], declared in the header
    and defined in the missing dense_matrix.C (section 4.2). *)
Definition _lu_back_substitute (M : DenseMatrix) (pivots : list Z)
    (b : list T) : outcome (list T) :=
  b ← permute_rhs pivots b;
  y ← forward_substitute M b;
  backward_substitute M y.

(** Modelled from the spec: [lu_solve], declared in the header and defined
    in the missing dense_matrix.C.
    - Decomposition-state guard (sections 3, 4.5 and 7): a solve of one kind
      may only be invoked when the tag is Clean or already of that kind; on
      a matrix tagged [CHOLESKY] the call fails with
      DecompositionStateError.  On a matrix tagged [NONE] or [LU] the call
      performs its own decomposition (section 3: the contract treats each
      [lu_solve] call as performing its own decomposition).
    - Shapes (sections 4.2 and 7): the system is A x = b for a square
      matrix A; a matrix that is not square, or a right-hand side whose
      length is not the number of rows, fails with DimensionError.
    - Otherwise (section 4.2): decompose, then substitute; the result is
      the factored matrix, tagged [LU], and the solution [x]. *)
Definition lu_solve (partial_pivot : bool) (M : DenseMatrix) (b : list T)
  : outcome (DenseMatrix * list T) :=
  match _decomposition_type M with
  | CHOLESKY => Err DecompositionStateError
  | LU | NONE =>
      if negb (_m M =? _n M) || negb (Z.of_nat (length b) =? _m M)
      then Err DimensionError
      else
        st ← _lu_decompose partial_pivot M;
        x ← _lu_back_substitute (fst st) (snd st) b;
        Ok (fst st, x)
  end.

(** ** Shape of a matrix *)

(** What the constructor and [resize] establish: the extents are
    [unsigned int] values and the buffer has [m * n] elements, the product
    taken in [unsigned int]. *)
Definition storage_ok (M : DenseMatrix) : Prop :=
  UInt.in_range (_m M) /\ UInt.in_range (_n M) /\
  size M = UInt.mul (_m M) (_n M).

(** An m-by-n matrix of the data model: its buffer has exactly m·n
    elements. *)
Definition well_formed (M : DenseMatrix) : Prop :=
  storage_ok M /\ size M = _m M * _n M.

(** The comparison [lt] is a strict total order. *)
Definition strict_total_order (lt : Real -> Real -> bool) : Prop :=
  (forall a, lt a a = false) /\
  (forall a b c, lt a b = true -> lt b c = true -> lt a c = true) /\
  (forall a b, lt a b = false -> lt b a = false -> a = b).

(** [B] is a transpose of [A]: the extents are exchanged and the (i,j)
    accessor of [B] agrees with [A.transpose(i,j)]. *)
Definition is_transpose_of (B A : DenseMatrix) : Prop :=
  _m B = _n A /\ _n B = _m A /\
  forall i j, 0 <= i < _m B -> 0 <= j < _n B ->
    op_call B i j = transpose A i j.

(** The entry the row-major layout puts at row [i], column [j]. *)
Definition entry (M : DenseMatrix) (i j : Z) : T :=
  default s_zero (_val M !! Z.to_nat (i * _n M + j)).

(** A materialised transpose, row by row. *)
Definition transposed (M : DenseMatrix) : DenseMatrix :=
  {| _m := _n M; _n := _m M;
     _val := i ← seqZ 0 (_n M); (fun j => entry M j i) <$> seqZ 0 (_m M);
     _decomposition_type := NONE |}.

(** ** The inner loops of the norms *)

(** The inner loop of [l1_norm]: the sum of the absolute values of column
    [j], accumulated from [0.] down the rows. *)
Definition column_sum (M : DenseMatrix) (j : Z) : outcome Real :=
  foldM (fun columnsum i =>
           x ← op_call M i j; Ok (r_add columnsum (s_abs x)))
        (seqZ 0 (_m M)) r_zero.

(** The inner loop of [linfty_norm]: the sum of the absolute values of row
    [i], accumulated from [0.] along the columns. *)
Definition row_sum (M : DenseMatrix) (i : Z) : outcome Real :=
  foldM (fun rowsum j =>
           x ← op_call M i j; Ok (r_add rowsum (s_abs x)))
        (seqZ 0 (_n M)) r_zero.

(** ** The scan of [min] and [max] *)

(** The loop nest shared by [min] and [max], over the comparison [lt] that
    decides which of the running value and the current entry is kept. *)
Definition scan (lt : Real -> Real -> bool) (M : DenseMatrix) (start : Real)
  : outcome Real :=
  foldM (fun acc i =>
           foldM (fun acc j =>
                    c ← op_call M i j;
                    let current := genius_real c in
                    Ok (if lt acc current then acc else current))
                 (seqZ 0 (_n M)) acc)
        (seqZ 0 (_m M)) start.

(** [a] is not above [b] in the order [lt]. *)
Definition not_above (lt : Real -> Real -> bool) (a b : Real) : Prop :=
  lt b a = false.

(** The value one iteration keeps. *)
Definition keep (lt : Real -> Real -> bool) (acc current : Real) : Real :=
  if lt acc current then acc else current.

(** The running value after the rows in [rows] have been scanned: it is the
    real part of an entry and not above the real part of any scanned one. *)
Definition scanned (lt : Real -> Real -> bool) (M : DenseMatrix)
    (rows : Z -> Prop) (acc : Real) : Prop :=
  acc ∈ (genius_real <$> _val M) /\
  forall i j, rows i -> 0 <= j < _n M ->
    not_above lt acc (genius_real (entry M i j)).

End dense_matrix.

Arguments DenseMatrix T : clear implicits.

(** ** Scalar instances used to run the definitions *)

#[global] Instance Z_scalar : Scalar Z Z := {|
  s_zero := 0; s_one := 1;
  s_add := Z.add; s_sub := Z.sub; s_mul := Z.mul; s_div := Z.div;
  numerically_zero := Z.eqb 0;
  genius_real := fun x => x;
  s_abs := Z.abs;
  r_zero := 0; r_add := Z.add; r_lt := Z.ltb
|}.

#[global] Instance Q_scalar : Scalar QArith_base.Q QArith_base.Q := {|
  s_zero := QArith_base.Qmake 0 1; s_one := QArith_base.Qmake 1 1;
  s_add := QArith_base.Qplus; s_sub := QArith_base.Qminus;
  s_mul := QArith_base.Qmult; s_div := QArith_base.Qdiv;
  numerically_zero := fun q => QArith_base.Qeq_bool q (QArith_base.Qmake 0 1);
  genius_real := fun x => x;
  s_abs := Qabs.Qabs;
  r_zero := QArith_base.Qmake 0 1; r_add := QArith_base.Qplus;
  r_lt := fun a b => negb (QArith_base.Qle_bool b a)
|}.

(** ** Matrices used in the examples *)

(** A 1-by-1 matrix that carries LU factors. *)
Definition lu_factored : DenseMatrix Z :=
  {| _m := 1; _n := 1; _val := [3]; _decomposition_type := LU |}.

(** [[1, -2, 3], [-4, 5, -6]] *)
Definition A23 : DenseMatrix Z :=
  {| _m := 2; _n := 3; _val := [1; -2; 3; -4; 5; -6];
     _decomposition_type := NONE |}.

(** A 1-by-2 and a 2-by-1 matrix: different extents, buffers of one length. *)
Definition row12 : DenseMatrix Z :=
  {| _m := 1; _n := 2; _val := [1; 2]; _decomposition_type := NONE |}.

Definition col21 : DenseMatrix Z :=
  {| _m := 2; _n := 1; _val := [10; 20]; _decomposition_type := NONE |}.

(** [[0, 1], [1, 0]] *)
Definition A01 : DenseMatrix QArith_base.Q :=
  {| _m := 2; _n := 2;
     _val := [QArith_base.Qmake 0 1; QArith_base.Qmake 1 1;
              QArith_base.Qmake 1 1; QArith_base.Qmake 0 1];
     _decomposition_type := NONE |}.

(** [[4, 3], [6, 3]] *)
Definition A4363 : DenseMatrix QArith_base.Q :=
  {| _m := 2; _n := 2;
     _val := [QArith_base.Qmake 4 1; QArith_base.Qmake 3 1;
              QArith_base.Qmake 6 1; QArith_base.Qmake 3 1];
     _decomposition_type := NONE |}.

(** * Properties *)

(** ** Vector indexing *)

Lemma index_middle {A} (l1 l2 : list A) (x : A) (n : nat) :
  n = length l1 -> index (l1 ++ x :: l2) n = Ok x.
Proof.
  intros Hn. unfold index. rewrite list_lookup_middle by exact Hn.
  reflexivity.
Qed.

Lemma index_lookup {A} (l : list A) (x : A) (n : nat) :
  l !! n = Some x -> index l n = Ok x.
Proof. intros Hn. unfold index. rewrite Hn. reflexivity. Qed.

Lemma index_ge {A} (l : list A) (n : nat) :
  (length l <= n)%nat -> index l n = Err OutOfRange.
Proof.
  intros Hn. unfold index. rewrite lookup_ge_None_2 by exact Hn.
  reflexivity.
Qed.

(** ** Loops *)

Section loops.

Context {A B : Type}.

Lemma foldM_app (f : B -> A -> outcome B) (l1 l2 : list A) (b : B) :
  foldM f (l1 ++ l2) b = (b' ← foldM f l1 b; foldM f l2 b').
Proof.
  revert b. induction l1 as [|a l1 IH]; intros b; simpl.
  - reflexivity.
  - destruct (f b a) as [b'|e]; simpl; [apply IH | reflexivity].
Qed.

Lemma foldM_ext_in (f g : B -> A -> outcome B) (l : list A) (b : B) :
  (forall b' a, a ∈ l -> f b' a = g b' a) -> foldM f l b = foldM g l b.
Proof.
  revert b. induction l as [|a l IH]; intros b Hfg; simpl.
  - reflexivity.
  - rewrite (Hfg b a) by (left).
    destruct (g b a) as [b'|e]; simpl; [|reflexivity].
    apply IH. intros b'' a' Hin. apply Hfg. right. exact Hin.
Qed.

Lemma foldM_ext (f g : B -> A -> outcome B) (l : list A) (b : B) :
  (forall b' a, f b' a = g b' a) -> foldM f l b = foldM g l b.
Proof. intros Hfg. apply foldM_ext_in. intros. apply Hfg. Qed.

(** A loop invariant that every iteration re-establishes holds of the
    result, and the loop does not fail when no iteration does. *)
Lemma foldM_invariant (P : B -> Prop) (f : B -> A -> outcome B)
    (l : list A) (b : B) :
  P b ->
  (forall b' a, a ∈ l -> P b' -> exists b'', f b' a = Ok b'' /\ P b'') ->
  exists r, foldM f l b = Ok r /\ P r.
Proof.
  revert b. induction l as [|a l IH]; intros b Hb Hstep; simpl.
  - exists b. split; [reflexivity | exact Hb].
  - destruct (Hstep b a) as (b1 & Hf & Hb1); [left | exact Hb |].
    rewrite Hf. simpl. apply IH; [exact Hb1 |].
    intros b' a' Hin. apply Hstep. right. exact Hin.
Qed.

End loops.

(** ** Storage: constructors, [zero], [resize], assignment *)

Section storage_facts.

Context {T Real : Type} `{Scalar T Real}.

Implicit Types M A B R other : DenseMatrix T.

Lemma length_vector_resize (k : nat) (v : list T) :
  length (vector_resize k v) = k.
Proof.
  unfold vector_resize. rewrite length_app, length_take, length_replicate. lia.
Qed.

Lemma length_fill_zero (v : list T) : length (fill_zero v) = length v.
Proof. unfold fill_zero. apply length_fmap. Qed.

Lemma fill_zero_all (v : list T) : Forall (fun x => x = s_zero) (fill_zero v).
Proof.
  unfold fill_zero. apply Forall_fmap. apply Forall_forall. intros x _.
  reflexivity.
Qed.

Lemma fill_zero_lookup (v : list T) (k : nat) :
  (k < length v)%nat -> fill_zero v !! k = Some s_zero.
Proof.
  intros Hk. unfold fill_zero. rewrite list_lookup_fmap.
  destruct (lookup_lt_is_Some_2 v k Hk) as [x ->]. reflexivity.
Qed.

Lemma size_resize m n M : size (resize m n M) = UInt.mul m n.
Proof.
  unfold size, resize, zero. simpl.
  rewrite length_fill_zero, length_vector_resize.
  apply Z2Nat.id. apply UInt.wrap_in_range.
Qed.

Lemma scale_loop (f : T -> T) (v done : list T) :
  fold_left (fun u i => alter f i u) (seq (length done) (length v))
            (done ++ v)
  = done ++ (f <$> v).
Proof.
  revert done. induction v as [|x v IH]; intros done; simpl.
  - reflexivity.
  - replace (alter f (length done) (done ++ x :: v))
      with ((done ++ [f x]) ++ v).
    + replace (S (length done)) with (length (done ++ [f x])).
      * rewrite IH. rewrite <- app_assoc. reflexivity.
      * rewrite length_app. simpl. lia.
    + rewrite <- app_assoc, alter_app_r_alt by lia.
      rewrite Nat.sub_diag. reflexivity.
Qed.

(** [scale] multiplies every entry, in place, on the right by [factor]. *)
Lemma scale_val factor M :
  _val (scale factor M) = (fun x => s_mul x factor) <$> _val M.
Proof.
  unfold scale. simpl.
  exact (scale_loop (fun x => s_mul x factor) (_val M) []).
Qed.

(** The elementwise loop of [add] and [operator+=] over the whole receiver,
    when the argument's buffer is long enough. *)
Lemma axpy_loop (g : T -> T -> T) (v w done dw : list T) :
  length done = length dw ->
  (length v <= length w)%nat ->
  foldM (fun u i =>
           y ← index (dw ++ w) i;
           x ← index u i;
           Ok (<[i := g x y]> u))
        (seq (length done) (length v)) (done ++ v)
  = Ok (done ++ zip_with g v w).
Proof.
  revert w done dw. induction v as [|x v IH]; intros w done dw Hd Hlen; simpl.
  - reflexivity.
  - destruct w as [|y w]; [simpl in Hlen; lia|]. simpl in Hlen.
    rewrite (index_middle dw w y (length done) Hd).
    rewrite (index_middle done v x (length done) eq_refl). simpl.
    replace (<[length done := g x y]> (done ++ x :: v))
      with ((done ++ [g x y]) ++ v).
    + replace (dw ++ y :: w) with ((dw ++ [y]) ++ w)
        by (rewrite <- app_assoc; reflexivity).
      replace (S (length done)) with (length (done ++ [g x y]))
        by (rewrite length_app; simpl; lia).
      rewrite IH.
      * rewrite <- app_assoc. reflexivity.
      * rewrite !length_app. simpl. lia.
      * lia.
    + rewrite <- app_assoc, insert_app_r_alt by lia.
      rewrite Nat.sub_diag. reflexivity.
Qed.

(** When the argument's buffer is shorter than the receiver's, the loop
    reads past its end. *)
Lemma axpy_loop_short (g : T -> T -> T) (v w done dw : list T) :
  length done = length dw ->
  (length w < length v)%nat ->
  foldM (fun u i =>
           y ← index (dw ++ w) i;
           x ← index u i;
           Ok (<[i := g x y]> u))
        (seq (length done) (length v)) (done ++ v)
  = Err OutOfRange.
Proof.
  revert w done dw. induction v as [|x v IH]; intros w done dw Hd Hlen; simpl.
  - simpl in Hlen. lia.
  - destruct w as [|y w].
    + rewrite (index_ge (dw ++ []) (length done)); [reflexivity|].
      rewrite app_nil_r. lia.
    + simpl in Hlen.
      rewrite (index_middle dw w y (length done) Hd).
      rewrite (index_middle done v x (length done) eq_refl). simpl.
      replace (<[length done := g x y]> (done ++ x :: v))
        with ((done ++ [g x y]) ++ v).
      * replace (dw ++ y :: w) with ((dw ++ [y]) ++ w)
          by (rewrite <- app_assoc; reflexivity).
        replace (S (length done)) with (length (done ++ [g x y]))
          by (rewrite length_app; simpl; lia).
        apply IH; [rewrite !length_app; simpl; lia | lia].
      * rewrite <- app_assoc, insert_app_r_alt by lia.
        rewrite Nat.sub_diag. reflexivity.
Qed.

Lemma add_ok factor A B :
  (length (_val A) <= length (_val B))%nat ->
  add factor A B
  = Ok (with_val A (zip_with (fun a b => s_add a (s_mul factor b))
                             (_val A) (_val B))).
Proof.
  intros Hlen. unfold add.
  rewrite (axpy_loop (fun a b => s_add a (s_mul factor b))
             (_val A) (_val B) [] [] eq_refl Hlen).
  reflexivity.
Qed.

Lemma add_short factor A B :
  (length (_val B) < length (_val A))%nat ->
  add factor A B = Err OutOfRange.
Proof.
  intros Hlen. unfold add.
  rewrite (axpy_loop_short (fun a b => s_add a (s_mul factor b))
             (_val A) (_val B) [] [] eq_refl Hlen).
  reflexivity.
Qed.

Lemma op_add_assign_ok A B :
  (length (_val A) <= length (_val B))%nat ->
  op_add_assign A B = Ok (with_val A (zip_with s_add (_val A) (_val B))).
Proof.
  intros Hlen. unfold op_add_assign.
  rewrite (axpy_loop s_add (_val A) (_val B) [] [] eq_refl Hlen).
  reflexivity.
Qed.

(** ** Row-major addressing *)

Lemma well_formed_product_small M :
  well_formed M -> 0 <= _m M * _n M < UInt.modulus.
Proof.
  intros [(Hm & Hn & Hsz) Hmn]. rewrite <- Hmn, Hsz.
  apply UInt.wrap_in_range.
Qed.

Lemma offset_in_range M i j :
  well_formed M -> 0 <= i < _m M -> 0 <= j < _n M ->
  0 <= i * _n M + j < _m M * _n M.
Proof. intros _ Hi Hj. nia. Qed.

Lemma element_ref_in_range M i j :
  well_formed M -> 0 <= i < _m M -> 0 <= j < _n M ->
  element_ref M i j = Ok (Z.to_nat (i * _n M + j)).
Proof.
  intros Hwf Hi Hj.
  pose proof (well_formed_product_small M Hwf) as Hsmall.
  pose proof (offset_in_range M i j Hwf Hi Hj) as Hoff.
  destruct Hwf as [_ Hmn].
  unfold element_ref, UInt.add, UInt.mul, UInt.wrap.
  rewrite (Z.mod_small (i * j)) by nia.
  rewrite (Z.mod_small (i * _n M)) by nia.
  rewrite (Z.mod_small (i * _n M + j)) by nia.
  rewrite Hmn.
  replace (i * j <? _m M * _n M) with true by (symmetry; apply Z.ltb_lt; nia).
  replace (i <? _m M) with true by (symmetry; apply Z.ltb_lt; lia).
  replace (j <? _n M) with true by (symmetry; apply Z.ltb_lt; lia).
  replace (i * _n M + j <? _m M * _n M) with true
    by (symmetry; apply Z.ltb_lt; lia).
  reflexivity.
Qed.

(** Whatever the length m·n of the buffer, an in-range access passes the
    assertions and refers to the offset the [unsigned int] arithmetic gives,
    which is i·n + j reduced modulo 2^32. *)
Lemma element_ref_wrapped M i j :
  UInt.in_range (_m M) -> UInt.in_range (_n M) -> size M = _m M * _n M ->
  0 <= i < _m M -> 0 <= j < _n M ->
  element_ref M i j = Ok (Z.to_nat (UInt.wrap (i * _n M + j))).
Proof.
  intros Hm Hn Hsz Hi Hj.
  assert (Hoff : 0 <= i * _n M + j < _m M * _n M) by nia.
  assert (Hmod : 0 < UInt.modulus) by (unfold UInt.modulus; lia).
  unfold element_ref, UInt.add, UInt.mul.
  replace (UInt.wrap (UInt.wrap (i * _n M) + j))
    with (UInt.wrap (i * _n M + j))
    by (unfold UInt.wrap; rewrite Zplus_mod_idemp_l; reflexivity).
  assert (Hij : UInt.wrap (i * j) < size M).
  { pose proof (UInt.wrap_in_range (i * j)) as Hw. unfold UInt.in_range in Hw.
    destruct (Z_lt_le_dec (_m M * _n M) UInt.modulus) as [Hsmall | Hlarge].
    - rewrite UInt.wrap_small by (unfold UInt.in_range; nia). nia.
    - lia. }
  assert (Hk : UInt.wrap (i * _n M + j) < size M).
  { pose proof (UInt.wrap_in_range (i * _n M + j)) as Hw.
    unfold UInt.in_range in Hw.
    destruct (Z_lt_le_dec (_m M * _n M) UInt.modulus) as [Hsmall | Hlarge].
    - rewrite UInt.wrap_small by (unfold UInt.in_range; lia). lia.
    - lia. }
  replace (UInt.wrap (i * j) <? size M) with true
    by (symmetry; apply Z.ltb_lt; exact Hij).
  replace (i <? _m M) with true by (symmetry; apply Z.ltb_lt; lia).
  replace (j <? _n M) with true by (symmetry; apply Z.ltb_lt; lia).
  replace (UInt.wrap (i * _n M + j) <? size M) with true
    by (symmetry; apply Z.ltb_lt; exact Hk).
  reflexivity.
Qed.

Lemma element_ref_out_of_range M i j :
  ~ (i < _m M /\ j < _n M) -> element_ref M i j = Err AssertionFailed.
Proof.
  intros Hout. unfold element_ref.
  destruct (UInt.mul i j <? size M); [|reflexivity].
  destruct (Z.ltb_spec i (_m M)) as [Hi|Hi]; [|reflexivity].
  destruct (Z.ltb_spec j (_n M)) as [Hj|Hj]; [|reflexivity].
  exfalso. apply Hout. split; assumption.
Qed.

Lemma op_call_in_range M i j :
  well_formed M -> 0 <= i < _m M -> 0 <= j < _n M ->
  exists y, _val M !! Z.to_nat (i * _n M + j) = Some y /\ op_call M i j = Ok y.
Proof.
  intros Hwf Hi Hj.
  pose proof (offset_in_range M i j Hwf Hi Hj) as Hoff.
  destruct (lookup_lt_is_Some_2 (_val M) (Z.to_nat (i * _n M + j))) as [y Hy].
  - destruct Hwf as [_ Hmn]. unfold size in Hmn. lia.
  - exists y. split; [exact Hy|].
    unfold op_call. rewrite element_ref_in_range by assumption. simpl.
    apply index_lookup. exact Hy.
Qed.

(** In-range entries of a well-formed matrix are read as [entry] describes. *)
Lemma op_call_entry M i j :
  well_formed M -> 0 <= i < _m M -> 0 <= j < _n M ->
  op_call M i j = Ok (entry M i j).
Proof.
  intros Hwf Hi Hj.
  destruct (op_call_in_range M i j Hwf Hi Hj) as (y & Hy & Hcall).
  unfold entry. rewrite Hy. exact Hcall.
Qed.

(** The buffer is sized by the product in [unsigned int]: 65536 rows of
    65536 columns get an empty buffer, and the entry (0,0) of that matrix
    cannot be accessed. *)
Lemma resize_product_wraps M :
  _m (resize 65536 65536 M) = 65536 /\
  _n (resize 65536 65536 M) = 65536 /\
  size (resize 65536 65536 M) = 0 /\
  op_call (resize 65536 65536 M) 0 0 = Err AssertionFailed.
Proof.
  split; [reflexivity|]. split; [reflexivity|].
  assert (Hsize : size (resize 65536 65536 M) = 0)
    by (rewrite size_resize; reflexivity).
  split; [exact Hsize|].
  unfold op_call, element_ref. rewrite Hsize. reflexivity.
Qed.

(** ** The shape is kept by the operations *)

Lemma resize_storage_ok m n M :
  UInt.in_range m -> UInt.in_range n -> storage_ok (resize m n M).
Proof.
  intros Hm Hn. unfold storage_ok. rewrite size_resize.
  split; [exact Hm | split; [exact Hn | reflexivity]].
Qed.

Lemma resize_well_formed m n M :
  UInt.in_range m -> UInt.in_range n -> m * n < UInt.modulus ->
  well_formed (resize m n M).
Proof.
  intros Hm Hn Hmn. split; [apply resize_storage_ok; assumption|].
  rewrite size_resize. simpl. apply UInt.wrap_small.
  unfold UInt.in_range in *. nia.
Qed.

Lemma ctor_storage_ok m n :
  UInt.in_range m -> UInt.in_range n ->
  storage_ok (DenseMatrix_ctor (T:=T) m n).
Proof. apply resize_storage_ok. Qed.

Lemma zero_storage_ok M : storage_ok M -> storage_ok (zero M).
Proof.
  unfold storage_ok, size, zero. simpl. rewrite length_fill_zero. tauto.
Qed.

Lemma scale_storage_ok factor M : storage_ok M -> storage_ok (scale factor M).
Proof.
  unfold storage_ok, size. rewrite scale_val, length_fmap. simpl. tauto.
Qed.

Lemma op_assign_storage_ok M other :
  storage_ok other -> storage_ok (op_assign M other).
Proof. unfold storage_ok, size, op_assign. simpl. tauto. Qed.

Lemma copy_ctor_storage_ok indet other :
  storage_ok other -> storage_ok (DenseMatrix_copy_ctor indet other).
Proof. unfold storage_ok, size, DenseMatrix_copy_ctor. simpl. tauto. Qed.

Lemma same_extents_same_length A B :
  storage_ok A -> storage_ok B -> _m A = _m B -> _n A = _n B ->
  length (_val A) = length (_val B).
Proof.
  intros (_ & _ & HA) (_ & _ & HB) Hm Hn. unfold size in *.
  rewrite Hm, Hn in HA. lia.
Qed.

Lemma add_storage_ok factor A B R :
  storage_ok A -> add factor A B = Ok R -> storage_ok R.
Proof.
  intros HA Hadd.
  destruct (Nat.le_gt_cases (length (_val A)) (length (_val B))) as [Hle|Hgt].
  - rewrite add_ok in Hadd by exact Hle. injection Hadd as <-.
    unfold storage_ok, size in *. simpl.
    rewrite length_zip_with. replace (length (_val A) `min` length (_val B))%nat
      with (length (_val A)) by lia. exact HA.
  - rewrite add_short in Hadd by exact Hgt. discriminate.
Qed.

End storage_facts.

(** ** The decomposition tag, [resize], the accessors, [add] *)

Section storage_claims.

Context {T Real : Type} `{Scalar T Real}.

Implicit Types M A B R other : DenseMatrix T.

(** C1 (as amended): [zero] and [resize] reset the decomposition-state tag to
    [NONE]; [scale] and [operator*=] leave the tag of the receiver as it was,
    so do [add] and [operator+=] whenever they return; [operator=] gives the
    receiver the tag of the matrix assigned from. *)
Theorem tag_after_mutation M other (m n : Z) (factor : T) :
  _decomposition_type (zero M) = NONE /\
  _decomposition_type (resize m n M) = NONE /\
  _decomposition_type (scale factor M) = _decomposition_type M /\
  _decomposition_type (op_mul_assign factor M) = _decomposition_type M /\
  (forall R, add factor M other = Ok R ->
             _decomposition_type R = _decomposition_type M) /\
  (forall R, op_add_assign M other = Ok R ->
             _decomposition_type R = _decomposition_type M) /\
  _decomposition_type (op_assign M other) = _decomposition_type other.
Proof.
  repeat split; try reflexivity.
  - intros R. unfold add.
    destruct (foldM _ _ _) as [v|e]; simpl; [|discriminate].
    intros [= <-]. reflexivity.
  - intros R. unfold op_add_assign.
    destruct (foldM _ _ _) as [v|e]; simpl; [|discriminate].
    intros [= <-]. reflexivity.
Qed.

(** C4: after [resize(m, n)] the row count is [m], the column count is [n],
    every element of the buffer is zero whatever the matrix held before, and
    the decomposition-state tag is [NONE].  The buffer has [m * n] elements,
    the product taken in [unsigned int]; when that product does not wrap,
    every entry (i,j) of the m-by-n matrix reads as zero. *)
Theorem resize_zero_fills M (m n : Z) :
  _m (resize m n M) = m /\
  _n (resize m n M) = n /\
  Forall (fun x => x = s_zero) (_val (resize m n M)) /\
  _decomposition_type (resize m n M) = NONE /\
  size (resize m n M) = UInt.mul m n /\
  (UInt.in_range m -> UInt.in_range n -> m * n < UInt.modulus ->
   forall i j, 0 <= i < m -> 0 <= j < n ->
     op_call (resize m n M) i j = Ok s_zero).
Proof.
  split; [reflexivity|]. split; [reflexivity|].
  split; [apply fill_zero_all|]. split; [reflexivity|].
  split; [apply size_resize|].
  intros Hm Hn Hmn i j Hi Hj.
  pose proof (resize_well_formed m n M Hm Hn Hmn) as Hwf.
  destruct (op_call_in_range (resize m n M) i j Hwf Hi Hj) as (y & Hy & ->).
  f_equal.
  pose proof (fill_zero_all
    (vector_resize (Z.to_nat (UInt.mul m n)) (_val M))) as Hall.
  rewrite Forall_forall in Hall. apply Hall.
  apply list_elem_of_lookup. eexists. exact Hy.
Qed.

(** C5: in a matrix whose buffer has m·n elements, for i < m and j < n the
    accessor passes its assertions and refers to the buffer element at offset
    i·n + j, which is below m·n: reading returns that element and writing
    replaces exactly that element; for i or j out of range the accessor fails
    an assertion. *)
Theorem element_access_row_major M (i j : Z) (x : T) :
  storage_ok M ->
  size M = _m M * _n M ->
  (0 <= i < _m M -> 0 <= j < _n M ->
     i * _n M + j < _m M * _n M /\
     element_ref M i j = Ok (Z.to_nat (i * _n M + j)) /\
     (exists y, _val M !! Z.to_nat (i * _n M + j) = Some y /\
                op_call M i j = Ok y) /\
     op_call_write M i j x
     = Ok (with_val M (<[Z.to_nat (i * _n M + j) := x]> (_val M)))) /\
  (~ (i < _m M /\ j < _n M) ->
     element_ref M i j = Err AssertionFailed /\
     op_call M i j = Err AssertionFailed /\
     op_call_write M i j x = Err AssertionFailed).
Proof.
  intros Hst Hsz.
  assert (Hwf : well_formed M) by (split; assumption).
  split.
  - intros Hi Hj.
    split; [apply (offset_in_range M i j Hwf Hi Hj)|].
    split; [apply element_ref_in_range; assumption|].
    split; [apply op_call_in_range; assumption|].
    unfold op_call_write. rewrite element_ref_in_range by assumption.
    reflexivity.
  - intros Hout. unfold op_call, op_call_write.
    rewrite (element_ref_out_of_range M i j Hout). repeat split.
Qed.

(** C2 (as amended): [add] checks no dimensions and raises no error of its
    own.  Whenever the argument's buffer is at least as long as the
    receiver's, and in particular when the two matrices have the same
    extents, [add(factor, B)] returns with every entry [A[k]] replaced by
    [A[k] + factor * B[k]] and with the extents and the tag of [A]
    unchanged. *)
Theorem add_unchecked_axpy (factor : T) A B :
  (length (_val A) <= length (_val B))%nat \/
  (storage_ok A /\ storage_ok B /\ _m A = _m B /\ _n A = _n B) ->
  exists R,
    add factor A B = Ok R /\
    _m R = _m A /\ _n R = _n A /\
    _decomposition_type R = _decomposition_type A /\
    length (_val R) = length (_val A) /\
    forall k a b, _val A !! k = Some a -> _val B !! k = Some b ->
      _val R !! k = Some (s_add a (s_mul factor b)).
Proof.
  intros Hpre.
  assert (Hlen : (length (_val A) <= length (_val B))%nat).
  { destruct Hpre as [Hlen | (HA & HB & Hm & Hn)]; [exact Hlen|].
    rewrite (same_extents_same_length A B HA HB Hm Hn). lia. }
  eexists. split; [apply add_ok; exact Hlen|]. simpl.
  repeat split.
  - rewrite length_zip_with. lia.
  - intros k a b Ha Hb. rewrite lookup_zip_with, Ha, Hb. reflexivity.
Qed.

(** C8: [A += B] and [A.add(1, B)] give the same result, the same final
    state of [A] or the same failure, provided multiplying by the scalar one
    on the left returns the other factor unchanged. *)
Theorem op_add_assign_is_add_one A B :
  (forall x : T, s_mul s_one x = x) ->
  op_add_assign A B = add s_one A B.
Proof.
  intros Hone. unfold op_add_assign, add. f_equal.
  apply foldM_ext. intros v i.
  destruct (index (_val B) i) as [y|e]; simpl; [|reflexivity].
  destruct (index v i) as [a|e]; simpl; [|reflexivity].
  rewrite Hone. reflexivity.
Qed.

(** C9: the copy constructor copies the row count, the column count and the
    buffer of its argument, and leaves the decomposition-state tag of the new
    object at whatever indeterminate value it had, whatever the tag of the
    argument is; the ordinary constructor yields the tag [NONE]. *)
Theorem copy_ctor_leaves_tag (indet : DecompositionType) other (m n : Z) :
  _m (DenseMatrix_copy_ctor indet other) = _m other /\
  _n (DenseMatrix_copy_ctor indet other) = _n other /\
  _val (DenseMatrix_copy_ctor indet other) = _val other /\
  _decomposition_type (DenseMatrix_copy_ctor indet other) = indet /\
  _decomposition_type (DenseMatrix_ctor (T:=T) m n) = NONE.
Proof. repeat split. Qed.

End storage_claims.

(** ** [min] and [max] *)

(** The two assertions [assert (this->_m)] and [assert (this->_n)] hold. *)
Ltac pass_extent_asserts M :=
  replace (negb (_m M =? 0)) with true
    by (symmetry; apply negb_true_iff, Z.eqb_neq; first [assumption | lia]);
  replace (negb (_n M =? 0)) with true
    by (symmetry; apply negb_true_iff, Z.eqb_neq; first [assumption | lia]).

Section extrema.

Context {T Real : Type} `{Scalar T Real}.

Implicit Types M : DenseMatrix T.

Lemma min_scan M :
  min M = (assert (negb (_m M =? 0));; assert (negb (_n M =? 0));;
           x ← op_call M 0 0; scan r_lt M (genius_real x)).
Proof. reflexivity. Qed.

Lemma max_scan M :
  max M = (assert (negb (_m M =? 0));; assert (negb (_n M =? 0));;
           x ← op_call M 0 0; scan (fun a b => r_lt b a) M (genius_real x)).
Proof. reflexivity. Qed.

Section order.

Variable lt : Real -> Real -> bool.
Hypothesis lt_irrefl : forall a, lt a a = false.
Hypothesis lt_trans :
  forall a b c, lt a b = true -> lt b c = true -> lt a c = true.
Hypothesis lt_total : forall a b, lt a b = false -> lt b a = false -> a = b.

Lemma not_above_refl a : not_above lt a a.
Proof. apply lt_irrefl. Qed.

Lemma lt_asym a b : lt a b = true -> lt b a = false.
Proof.
  intros Hab. destruct (lt b a) eqn:Hba; [|reflexivity].
  rewrite <- (lt_irrefl a). symmetry. apply (lt_trans a b a); assumption.
Qed.

Lemma not_above_trans a b c :
  not_above lt a b -> not_above lt b c -> not_above lt a c.
Proof.
  unfold not_above. intros Hab Hbc.
  destruct (lt c a) eqn:Hca; [|reflexivity].
  destruct (lt a b) eqn:Hlt.
  - rewrite <- Hbc. symmetry. apply (lt_trans c a b); assumption.
  - assert (a = b) as -> by (apply lt_total; assumption).
    rewrite <- Hbc. symmetry. exact Hca.
Qed.

Lemma keep_cases acc c : keep lt acc c = acc \/ keep lt acc c = c.
Proof. unfold keep. destruct (lt acc c); [left | right]; reflexivity. Qed.

Lemma keep_not_above_acc acc c : not_above lt (keep lt acc c) acc.
Proof.
  unfold keep, not_above. destruct (lt acc c) eqn:Hlt;
    [apply lt_irrefl | exact Hlt].
Qed.

Lemma keep_not_above_current acc c : not_above lt (keep lt acc c) c.
Proof.
  unfold keep, not_above. destruct (lt acc c) eqn:Hlt;
    [apply lt_asym; exact Hlt | apply lt_irrefl].
Qed.

Lemma entry_elem_of M i j :
  well_formed M -> 0 <= i < _m M -> 0 <= j < _n M -> entry M i j ∈ _val M.
Proof.
  intros Hwf Hi Hj.
  destruct (op_call_in_range M i j Hwf Hi Hj) as (y & Hy & _).
  unfold entry. rewrite Hy. simpl. apply list_elem_of_lookup. eexists. exact Hy.
Qed.

Lemma elem_of_entry M x :
  well_formed M -> x ∈ _val M ->
  exists i j, 0 <= i < _m M /\ 0 <= j < _n M /\ x = entry M i j.
Proof.
  intros Hwf Hx. apply list_elem_of_lookup in Hx as [k Hk].
  pose proof (lookup_lt_Some _ _ _ Hk) as Hlt.
  destruct Hwf as [(Hm & Hn & _) Hmn]. unfold size in Hmn.
  unfold UInt.in_range in *.
  assert (Hnpos : 0 < _n M) by nia.
  exists (Z.of_nat k / _n M), (Z.of_nat k mod _n M).
  pose proof (Z.mod_pos_bound (Z.of_nat k) (_n M) Hnpos) as Hmod.
  pose proof (Z.div_mod (Z.of_nat k) (_n M) ltac:(lia)) as Hdm.
  assert (0 <= Z.of_nat k / _n M) by (apply Z.div_pos; lia).
  assert (Z.of_nat k / _n M < _m M)
    by (apply Z.div_lt_upper_bound; lia).
  split; [lia|]. split; [lia|].
  unfold entry.
  replace (Z.of_nat k / _n M * _n M + Z.of_nat k mod _n M) with (Z.of_nat k)
    by lia.
  rewrite Nat2Z.id, Hk. reflexivity.
Qed.

Lemma scan_row M (rows : Z -> Prop) (i : Z) (acc : Real) :
  well_formed M -> 0 <= i < _m M -> scanned lt M rows acc ->
  exists r,
    foldM (fun acc j =>
             c ← op_call M i j;
             let current := genius_real c in
             Ok (if lt acc current then acc else current))
          (seqZ 0 (_n M)) acc = Ok r /\
    scanned lt M (fun i' => rows i' \/ i' = i) r.
Proof.
  intros Hwf Hi Hacc.
  assert (Hgen : forall cols : Z, 0 <= cols ->
    cols <= _n M ->
    exists r,
      foldM (fun acc j =>
               c ← op_call M i j;
               let current := genius_real c in
               Ok (if lt acc current then acc else current))
            (seqZ 0 cols) acc = Ok r /\
      scanned lt M rows r /\
      forall j, 0 <= j < cols -> not_above lt r (genius_real (entry M i j))).
  { intros cols Hcols. pattern cols. revert cols Hcols.
    apply natlike_ind.
    - intros _. exists acc. split; [reflexivity|]. split; [exact Hacc|]. lia.
    - intros cols Hcols IH Hle.
      destruct IH as (r & Hr & Hsc & Hrow); [lia|].
      replace (Z.succ cols) with (cols + 1) by lia.
      rewrite seqZ_app by lia. rewrite foldM_app, Hr.
      change (seqZ (0 + cols) 1) with [cols]. simpl.
      rewrite (op_call_entry M i cols Hwf Hi) by lia. simpl.
      fold (keep lt r (genius_real (entry M i cols))).
      eexists. split; [reflexivity|].
      pose proof (keep_not_above_acc r (genius_real (entry M i cols))) as Hk1.
      pose proof (keep_not_above_current r (genius_real (entry M i cols)))
        as Hk2.
      split; [split|].
      + destruct (keep_cases r (genius_real (entry M i cols))) as [-> | ->].
        * apply Hsc.
        * apply list_elem_of_fmap_2. apply entry_elem_of; [assumption..|lia].
      + intros i' j Hi' Hj. eapply not_above_trans; [exact Hk1|].
        apply Hsc; assumption.
      + intros j Hj. destruct (Z.eq_dec j cols) as [-> | Hne].
        * exact Hk2.
        * eapply not_above_trans; [exact Hk1|]. apply Hrow. lia. }
  destruct Hwf as [(Hm & Hn & Hsz) Hmn].
  destruct (Hgen (_n M)) as (r & Hr & Hsc & Hrow);
    [unfold UInt.in_range in Hn; lia | lia |].
  exists r. split; [exact Hr|]. split; [apply Hsc|].
  intros i' j [Hi' | ->] Hj; [apply Hsc; assumption | apply Hrow; exact Hj].
Qed.

Lemma scan_all M (start : Real) :
  well_formed M -> start ∈ (genius_real <$> _val M) ->
  exists r, scan lt M start = Ok r /\
    r ∈ (genius_real <$> _val M) /\
    forall x, x ∈ _val M -> not_above lt r (genius_real x).
Proof.
  intros Hwf Hstart. unfold scan.
  assert (Hgen : forall rows : Z, 0 <= rows ->
    rows <= _m M ->
    exists r,
      foldM (fun acc i =>
               foldM (fun acc j =>
                        c ← op_call M i j;
                        let current := genius_real c in
                        Ok (if lt acc current then acc else current))
                     (seqZ 0 (_n M)) acc)
            (seqZ 0 rows) start = Ok r /\
      scanned lt M (fun i => 0 <= i < rows) r).
  { intros rows Hrows. pattern rows. revert rows Hrows.
    apply natlike_ind.
    - intros _. exists start. split; [reflexivity|].
      split; [exact Hstart|]. intros i j Hi. lia.
    - intros rows Hrows IH Hle.
      destruct IH as (r & Hr & Hsc); [lia|].
      replace (Z.succ rows) with (rows + 1) by lia.
      rewrite seqZ_app by lia. rewrite foldM_app, Hr.
      change (seqZ (0 + rows) 1) with [rows]. simpl.
      destruct (scan_row M _ rows r Hwf ltac:(lia) Hsc) as (r' & Hr' & Hsc').
      simpl in Hr'. rewrite Hr'. simpl. exists r'. split; [reflexivity|].
      destruct Hsc' as [Hin Hb]. split; [exact Hin|].
      intros i j Hi Hj. apply Hb; [|exact Hj].
      destruct (Z.eq_dec i rows); [right; assumption | left; lia]. }
  pose proof Hwf as [(Hm & Hn & Hsz) Hmn].
  destruct (Hgen (_m M)) as (r & Hr & Hin & Hb);
    [unfold UInt.in_range in Hm; lia | lia |].
  exists r. split; [exact Hr|]. split; [exact Hin|].
  intros x Hx. destruct (elem_of_entry M x Hwf Hx) as (i & j & Hi & Hj & ->).
  apply Hb; assumption.
Qed.

End order.

End extrema.

Section extrema_claim.

Context {T Real : Type} `{Scalar T Real}.

Implicit Types M : DenseMatrix T.

Lemma flip_strict_total_order (lt : Real -> Real -> bool) :
  strict_total_order lt -> strict_total_order (fun a b => lt b a).
Proof.
  intros (Hirr & Htr & Htot). split; [exact Hirr|]. split.
  - intros a b c Hab Hbc. apply (Htr c b a); assumption.
  - intros a b Hab Hba. apply Htot; assumption.
Qed.

Lemma first_entry M :
  well_formed M -> _m M <> 0 -> _n M <> 0 ->
  op_call M 0 0 = Ok (entry M 0 0) /\
  genius_real (entry M 0 0) ∈ (genius_real <$> _val M).
Proof.
  intros Hwf Hm Hn. pose proof Hwf as [(Hmr & Hnr & _) _].
  unfold UInt.in_range in *.
  split; [apply op_call_entry; [exact Hwf | lia | lia]|].
  apply list_elem_of_fmap_2. apply entry_elem_of; [exact Hwf | lia | lia].
Qed.

(** C7: on a non-empty matrix [min] returns a value that is the real part of
    some entry and is not above the real part of any entry, and [max] returns
    a value that is the real part of some entry and is not below the real
    part of any entry; only the real part [genius_real] of an entry is
    compared.  On a matrix with no row or no column both fail an assertion.
    The comparison of [Real] is a strict total order. *)
Theorem min_max_real_parts M :
  strict_total_order (r_lt (T:=T)) ->
  well_formed M ->
  (_m M <> 0 -> _n M <> 0 ->
     exists lo hi,
       min M = Ok lo /\ max M = Ok hi /\
       lo ∈ (genius_real <$> _val M) /\
       hi ∈ (genius_real <$> _val M) /\
       forall x, x ∈ _val M ->
         r_lt (genius_real x) lo = false /\ r_lt hi (genius_real x) = false) /\
  (_m M = 0 \/ _n M = 0 ->
     min M = Err AssertionFailed /\ max M = Err AssertionFailed).
Proof.
  intros Hord Hwf. split.
  - intros Hm Hn.
    destruct (first_entry M Hwf Hm Hn) as [Hcall Hin].
    pose proof Hord as (Hirr & Htr & Htot).
    destruct (scan_all r_lt Hirr Htr Htot M _ Hwf Hin)
      as (lo & Hlo & Hloin & Hlob).
    pose proof (flip_strict_total_order _ Hord) as (Hirr' & Htr' & Htot').
    destruct (scan_all (fun a b => r_lt b a) Hirr' Htr' Htot' M _ Hwf Hin)
      as (hi & Hhi & Hhiin & Hhib).
    exists lo, hi.
    rewrite min_scan, max_scan.
    pass_extent_asserts M.
    rewrite Hcall. simpl.
    split; [exact Hlo|]. split; [exact Hhi|].
    split; [exact Hloin|]. split; [exact Hhiin|].
    intros x Hx. split; [apply (Hlob x Hx) | apply (Hhib x Hx)].
  - intros Hempty. rewrite min_scan, max_scan.
    destruct Hempty as [-> | ->]; simpl.
    + split; reflexivity.
    + destruct (negb (_m M =? 0)); split; reflexivity.
Qed.

End extrema_claim.

(** ** Norms and the transpose *)

Section norms.

Context {T Real : Type} `{Scalar T Real}.

Implicit Types M A B : DenseMatrix T.

(** The sum of absolute values along one line of the matrix: [get k] is the
    access to its k-th element. *)
Lemma line_sum_ext (get get' : Z -> outcome T) (len : Z) (s : Real) :
  (forall k, 0 <= k < len -> get k = get' k) ->
  foldM (fun acc k => x ← get k; Ok (r_add acc (s_abs x))) (seqZ 0 len) s
  = foldM (fun acc k => x ← get' k; Ok (r_add acc (s_abs x))) (seqZ 0 len) s.
Proof.
  intros Hget. apply foldM_ext_in. intros acc k Hk.
  apply elem_of_seqZ in Hk. rewrite Hget by lia. reflexivity.
Qed.

Lemma line_sum_ok (get : Z -> outcome T) (len : Z) (s : Real) :
  (forall k, 0 <= k < len -> exists x, get k = Ok x) ->
  exists r,
    foldM (fun acc k => x ← get k; Ok (r_add acc (s_abs x))) (seqZ 0 len) s
    = Ok r.
Proof.
  intros Hget.
  destruct (foldM_invariant (fun _ => True)
              (fun acc k => x ← get k; Ok (r_add acc (s_abs x)))
              (seqZ 0 len) s I) as (r & Hr & _).
  - intros acc k Hk _. apply elem_of_seqZ in Hk.
    destruct (Hget k) as [x Hx]; [lia|]. rewrite Hx. simpl.
    eexists. split; [reflexivity | exact I].
  - exists r. exact Hr.
Qed.

Lemma l1_is_linfty_of_transpose A B :
  0 < _m A -> 0 < _n A -> is_transpose_of B A ->
  l1_norm A = linfty_norm B.
Proof.
  intros Hm Hn (HmB & HnB & Hacc).
  unfold l1_norm, linfty_norm. rewrite HmB, HnB.
  pass_extent_asserts A.
  simpl.
  rewrite (line_sum_ext (fun i => op_call A i 0) (fun j => op_call B 0 j))
    by (intros k Hk; symmetry; apply Hacc; lia).
  destruct (foldM _ (seqZ 0 (_m A)) r_zero) as [first|e]; simpl; [|reflexivity].
  apply foldM_ext_in. intros my_max j Hj. apply elem_of_seqZ in Hj.
  rewrite (line_sum_ext (fun i => op_call A i j) (fun k => op_call B j k))
    by (intros k Hk; symmetry; apply Hacc; lia).
  reflexivity.
Qed.

Lemma l1_norm_ok A :
  well_formed A -> 0 < _m A -> 0 < _n A -> exists r, l1_norm A = Ok r.
Proof.
  intros Hwf Hm Hn. unfold l1_norm.
  pass_extent_asserts A.
  simpl.
  destruct (line_sum_ok (fun i => op_call A i 0) (_m A) r_zero) as [first ->].
  { intros k Hk. exists (entry A k 0).
    apply op_call_entry; [assumption|lia..]. }
  simpl.
  destruct (foldM_invariant (fun _ => True)
    (fun my_max j =>
       columnsum ← foldM (fun columnsum i =>
                            x ← op_call A i j;
                            Ok (r_add columnsum (s_abs x)))
                         (seqZ 0 (_m A)) r_zero;
       Ok (if r_lt columnsum my_max then my_max else columnsum))
    (seqZ 1 (_n A - 1)) first I) as (r & Hr & _).
  - intros my_max j Hj _. apply elem_of_seqZ in Hj.
    destruct (line_sum_ok (fun i => op_call A i j) (_m A) r_zero) as [c ->].
    { intros k Hk. exists (entry A k j).
      apply op_call_entry; [assumption|lia..]. }
    simpl. eexists. split; [reflexivity | exact I].
  - exists r. exact Hr.
Qed.

(** C6: for a non-empty m-by-n matrix [A] and any matrix [B] that is its
    transpose (extents exchanged, the (i,j) accessor of [B] equal to
    [A.transpose(i,j)]), [l1_norm] of [A] and [linfty_norm] of [B] return the
    same value: the largest column sum of absolute values of [A] is the
    largest row sum of absolute values of the transposed entries. *)
Theorem l1_norm_transpose_duality A B :
  well_formed A -> _m A <> 0 -> _n A <> 0 ->
  is_transpose_of B A ->
  exists r, l1_norm A = Ok r /\ linfty_norm B = Ok r.
Proof.
  intros Hwf Hm Hn Htr.
  pose proof Hwf as [(Hmr & Hnr & _) _]. unfold UInt.in_range in *.
  destruct (l1_norm_ok A Hwf) as [r Hr]; [lia | lia |].
  exists r. split; [exact Hr|].
  rewrite <- (l1_is_linfty_of_transpose A B) by (lia || exact Htr).
  exact Hr.
Qed.

End norms.

(** ** [swap] *)

Section swapping.

Context {T Real : Type} `{Scalar T Real}.

Implicit Types P Q M : DenseMatrix T.
Implicit Types st : gmap nat (DenseMatrix T).

Lemma exchange_lookup {X} (get : DenseMatrix T -> X)
    (set : X -> DenseMatrix T -> DenseMatrix T) (p q : nat) st P Q :
  (forall M, set (get M) M = M) ->
  st !! p = Some P -> st !! q = Some Q ->
  exchange get set p q st !! p = Some (set (get Q) P) /\
  exchange get set p q st !! q = Some (set (get P) Q) /\
  forall k, k <> p -> k <> q -> exchange get set p q st !! k = st !! k.
Proof.
  intros Hid HP HQ. unfold exchange.
  rewrite (lookup_total_correct st p P HP), (lookup_total_correct st q Q HQ).
  destruct (decide (p = q)) as [-> | Hne].
  - assert (P = Q) as -> by congruence.
    rewrite !lookup_alter_eq, HQ. simpl. rewrite !Hid.
    split; [reflexivity|]. split; [reflexivity|].
    intros k Hk _. rewrite !lookup_alter_ne by congruence. reflexivity.
  - split; [|split].
    + rewrite lookup_alter_ne by congruence. rewrite lookup_alter_eq, HP.
      reflexivity.
    + rewrite lookup_alter_eq. rewrite lookup_alter_ne by congruence.
      rewrite HQ. reflexivity.
    + intros k Hkp Hkq. rewrite !lookup_alter_ne by congruence. reflexivity.
Qed.

Lemma swap_lookup (this other_matrix : nat) st P Q :
  st !! this = Some P -> st !! other_matrix = Some Q ->
  swap this other_matrix st !! this = Some Q /\
  swap this other_matrix st !! other_matrix = Some P /\
  forall k, k <> this -> k <> other_matrix ->
    swap this other_matrix st !! k = st !! k.
Proof.
  intros HP HQ. unfold swap.
  destruct (exchange_lookup _m set_m this other_matrix st P Q)
    as (HP1 & HQ1 & Hk1); [intros []; reflexivity | assumption..|].
  destruct (exchange_lookup _n set_n this other_matrix _ _ _
              ltac:(intros []; reflexivity) HP1 HQ1) as (HP2 & HQ2 & Hk2).
  destruct (exchange_lookup _val set_val this other_matrix _ _ _
              ltac:(intros []; reflexivity) HP2 HQ2) as (HP3 & HQ3 & Hk3).
  destruct (exchange_lookup _decomposition_type set_decomposition_type
              this other_matrix _ _ _
              ltac:(intros []; reflexivity) HP3 HQ3) as (HP4 & HQ4 & Hk4).
  split; [|split].
  - rewrite HP4. destruct P, Q. reflexivity.
  - rewrite HQ4. destruct P, Q. reflexivity.
  - intros k Hkp Hkq. rewrite Hk4, Hk3, Hk2, Hk1 by assumption. reflexivity.
Qed.

(** C10: [swap] exchanges the whole state of the two matrices (row count,
    column count, buffer and decomposition-state tag), leaves every other
    object alone, and applied twice restores the store it started from; this
    also holds when both references name the same matrix. *)
Theorem swap_exchanges_states (this other_matrix : nat) st P Q :
  st !! this = Some P -> st !! other_matrix = Some Q ->
  swap this other_matrix st !! this = Some Q /\
  swap this other_matrix st !! other_matrix = Some P /\
  (forall k, k <> this -> k <> other_matrix ->
     swap this other_matrix st !! k = st !! k) /\
  swap this other_matrix (swap this other_matrix st) = st.
Proof.
  intros HP HQ.
  destruct (swap_lookup this other_matrix st P Q HP HQ) as (H1 & H2 & H3).
  split; [exact H1|]. split; [exact H2|]. split; [exact H3|].
  destruct (swap_lookup this other_matrix _ Q P H1 H2) as (H1' & H2' & H3').
  apply map_eq. intros k.
  destruct (decide (k = this)) as [-> | Hkp]; [congruence|].
  destruct (decide (k = other_matrix)) as [-> | Hkq]; [congruence|].
  rewrite H3', H3 by assumption. reflexivity.
Qed.

End swapping.

(** ** A materialised transpose is a transpose *)

Section transposition.

Context {T Real : Type} `{Scalar T Real}.

Implicit Types A : DenseMatrix T.

Lemma length_bind_rows {X Y} (row : X -> list Y) (w : nat) (l : list X) :
  (forall a, length (row a) = w) -> length (l ≫= row) = (length l * w)%nat.
Proof.
  intros Hrow. induction l as [|a l IH]; [reflexivity|].
  change ((a :: l) ≫= row) with (row a ++ (l ≫= row)).
  rewrite length_app, Hrow, IH. simpl. lia.
Qed.

Lemma lookup_bind_rows {X Y} (row : X -> list Y) (w : nat) (l : list X)
    (i j : nat) :
  (forall a, length (row a) = w) -> (j < w)%nat ->
  (l ≫= row) !! (i * w + j)%nat = l !! i ≫= fun a => row a !! j.
Proof.
  intros Hrow Hj. revert i. induction l as [|a l IH]; intros i.
  - reflexivity.
  - change ((a :: l) ≫= row) with (row a ++ (l ≫= row)).
    destruct i as [|i].
    + simpl. apply lookup_app_l. rewrite Hrow. exact Hj.
    + rewrite lookup_app_r by (rewrite Hrow; simpl; lia).
      rewrite Hrow. replace (S i * w + j - w)%nat with (i * w + j)%nat
        by (simpl; lia).
      rewrite IH. reflexivity.
Qed.

Lemma transposed_well_formed A : well_formed A -> well_formed (transposed A).
Proof.
  intros Hwf. pose proof (well_formed_product_small A Hwf) as Hsmall.
  destruct Hwf as [(Hm & Hn & Hsz) Hmn]. unfold UInt.in_range in *.
  assert (Hlen : size (transposed A) = _n A * _m A).
  { unfold size, transposed. simpl.
    rewrite (length_bind_rows _ (Z.to_nat (_m A)))
      by (intros a; rewrite length_fmap, length_seqZ; reflexivity).
    rewrite length_seqZ. lia. }
  split; [|exact Hlen].
  split; [exact Hn|]. split; [exact Hm|].
  rewrite Hlen. simpl. symmetry. apply UInt.wrap_small.
  unfold UInt.in_range. lia.
Qed.

Lemma entry_transposed A i j :
  0 <= i < _n A -> 0 <= j < _m A ->
  entry (transposed A) i j = entry A j i.
Proof.
  intros Hi Hj. unfold entry at 1. simpl.
  replace (Z.to_nat (i * _m A + j))
    with (Z.to_nat i * Z.to_nat (_m A) + Z.to_nat j)%nat by lia.
  rewrite (lookup_bind_rows _ (Z.to_nat (_m A)))
    by (try (intros a; rewrite length_fmap, length_seqZ; reflexivity); lia).
  rewrite lookup_seqZ_lt by lia. simpl.
  rewrite list_lookup_fmap, lookup_seqZ_lt by lia. simpl.
  f_equal; lia.
Qed.

Lemma transposed_is_transpose A :
  well_formed A -> is_transpose_of (transposed A) A.
Proof.
  intros Hwf. split; [reflexivity|]. split; [reflexivity|].
  intros i j Hi Hj. simpl in Hi, Hj. unfold transpose.
  rewrite (op_call_entry (transposed A) i j (transposed_well_formed A Hwf))
    by (simpl; lia).
  rewrite (op_call_entry A j i Hwf) by lia.
  f_equal. apply entry_transposed; lia.
Qed.

End transposition.

(** ** LU solve *)

Section lu.

Context {T Real : Type} `{Scalar T Real}.

Implicit Types M : DenseMatrix T.

Lemma lu_step_zero_pivot (st : DenseMatrix T * list Z) (k : Z) (d : T) :
  op_call (fst st) k k = Ok d -> numerically_zero d = true ->
  lu_step false st k = Err SingularMatrixError.
Proof.
  intros Hd Hzero. unfold lu_step. simpl. rewrite Hd. simpl.
  rewrite Hzero. reflexivity.
Qed.

(** Elimination without pivoting stops at the first step whose pivot
    candidate is (numerically) zero. *)
Lemma lu_decompose_zero_pivot M (k : Z) (st : DenseMatrix T * list Z) (d : T) :
  0 <= k < _m M ->
  foldM (lu_step false) (seqZ 0 k) (M, []) = Ok st ->
  op_call (fst st) k k = Ok d ->
  numerically_zero d = true ->
  _lu_decompose false M = Err SingularMatrixError.
Proof.
  intros Hk Hsteps Hd Hzero. unfold _lu_decompose.
  replace (_m M) with (k + (_m M - k)) by lia.
  rewrite seqZ_app by lia. rewrite foldM_app, Hsteps.
  rewrite seqZ_cons by lia.
  change (Ok st ≫= _) with
    (st' ← lu_step false st (0 + k);
     foldM (lu_step false) (seqZ (Z.succ (0 + k)) (Z.pred (_m M - k))) st')
    at 1.
  rewrite Z.add_0_l, (lu_step_zero_pivot st k d Hd Hzero). reflexivity.
Qed.

(** The guards of [lu_solve]: the decomposition state first, then the
    shapes. *)
Lemma lu_solve_rejects_cholesky (partial_pivot : bool) M (b : list T) :
  _decomposition_type M = CHOLESKY ->
  lu_solve partial_pivot M b = Err DecompositionStateError.
Proof. intros Htag. unfold lu_solve. rewrite Htag. reflexivity. Qed.

Lemma lu_solve_rejects_shape (partial_pivot : bool) M (b : list T) :
  _decomposition_type M <> CHOLESKY ->
  _m M <> _n M \/ Z.of_nat (length b) <> _m M ->
  lu_solve partial_pivot M b = Err DimensionError.
Proof.
  intros Htag Hshape. unfold lu_solve.
  assert (Hguard : negb (_m M =? _n M)
                   || negb (Z.of_nat (length b) =? _m M) = true).
  { apply orb_true_iff.
    destruct Hshape as [Hsq | Hlen]; [left | right];
      apply negb_true_iff, Z.eqb_neq; assumption. }
  rewrite Hguard.
  destruct (_decomposition_type M); [reflexivity | | reflexivity].
  exfalso. apply Htag. reflexivity.
Qed.

Lemma lu_solve_admitted_shape (partial_pivot : bool) M (b : list T) :
  _decomposition_type M <> CHOLESKY ->
  _m M = _n M ->
  Z.of_nat (length b) = _m M ->
  lu_solve partial_pivot M b
  = (st ← _lu_decompose partial_pivot M;
     x ← _lu_back_substitute (fst st) (snd st) b;
     Ok (fst st, x)).
Proof.
  intros Htag Hsq Hlen. unfold lu_solve.
  replace (_m M =? _n M) with true by (symmetry; apply Z.eqb_eq; exact Hsq).
  replace (Z.of_nat (length b) =? _m M) with true
    by (symmetry; apply Z.eqb_eq; exact Hlen).
  simpl.
  destruct (_decomposition_type M); [reflexivity | | reflexivity].
  exfalso. apply Htag. reflexivity.
Qed.

End lu.

(** C3: on a square matrix that does not carry Cholesky factors, with a
    right-hand side of matching length, [lu_solve] without pivoting fails
    with SingularMatrixError as soon as an elimination step meets a
    (numerically) zero pivot candidate; for A = [[0,1],[1,0]] and every
    right-hand side [b0, b1] it fails with SingularMatrixError when
    [partial_pivot] is false, and with [partial_pivot] true it returns the
    matrix tagged [LU] and a solution [x0, x1] with x0 = b1 and x1 = b0. *)
Theorem lu_solve_zero_pivot :
  (forall (T Real : Type) (S : Scalar T Real) (M : DenseMatrix T)
          (b : list T) (k : Z) (st : DenseMatrix T * list Z) (d : T),
     _decomposition_type M <> CHOLESKY ->
     _m M = _n M ->
     Z.of_nat (length b) = _m M ->
     0 <= k < _m M ->
     foldM (lu_step false) (seqZ 0 k) (M, []) = Ok st ->
     op_call (fst st) k k = Ok d ->
     numerically_zero d = true ->
     lu_solve false M b = Err SingularMatrixError) /\
  (forall b0 b1, lu_solve false A01 [b0; b1] = Err SingularMatrixError) /\
  (forall b0 b1, exists M' x0 x1,
     lu_solve true A01 [b0; b1] = Ok (M', [x0; x1]) /\
     _decomposition_type M' = LU /\
     QArith_base.Qeq x0 b1 /\ QArith_base.Qeq x1 b0).
Proof.
  assert (Hgen : forall (T Real : Type) (S : Scalar T Real)
            (M : DenseMatrix T)
            (b : list T) (k : Z) (st : DenseMatrix T * list Z) (d : T),
     _decomposition_type M <> CHOLESKY ->
     _m M = _n M ->
     Z.of_nat (length b) = _m M ->
     0 <= k < _m M ->
     foldM (lu_step false) (seqZ 0 k) (M, []) = Ok st ->
     op_call (fst st) k k = Ok d ->
     numerically_zero d = true ->
     lu_solve false M b = Err SingularMatrixError).
  { intros T Real S M b k st d Htag Hsq Hlen Hk Hsteps Hd Hzero.
    rewrite (lu_solve_admitted_shape false M b Htag Hsq Hlen).
    rewrite (lu_decompose_zero_pivot M k st d Hk Hsteps Hd Hzero).
    reflexivity. }
  split; [exact Hgen|]. split.
  - intros b0 b1.
    apply (Hgen _ _ _ A01 [b0; b1] 0 (A01, []) (QArith_base.Qmake 0 1)).
    + discriminate.
    + reflexivity.
    + reflexivity.
    + simpl. lia.
    + reflexivity.
    + reflexivity.
    + reflexivity.
  - intros b0 b1.
    rewrite (lu_solve_admitted_shape true A01 [b0; b1])
      by (discriminate || reflexivity).
    let r := eval vm_compute in (_lu_decompose true A01) in
    change (_lu_decompose true A01) with r.
    cbv -[QArith_base.Qplus QArith_base.Qminus QArith_base.Qmult
          QArith_base.Qdiv QArith_base.Qeq].
    do 3 eexists. split; [reflexivity|]. split; [reflexivity|].
    split; field.
Qed.

(** ** The properties on concrete matrices *)

Lemma Z_ltb_strict_total_order : strict_total_order (@r_lt Z Z Z_scalar).
Proof.
  split; [|split]; simpl.
  - intros a. apply Z.ltb_irrefl.
  - intros a b c Hab Hbc. apply Z.ltb_lt in Hab, Hbc. apply Z.ltb_lt. lia.
  - intros a b Hab Hba. apply Z.ltb_ge in Hab, Hba. lia.
Qed.

Lemma A23_well_formed : well_formed A23.
Proof.
  unfold well_formed, storage_ok, UInt.in_range, UInt.modulus.
  repeat split; simpl; try lia; reflexivity.
Defined.

(** [scale], [add] and [operator=] on a matrix tagged [LU]: the tag of the
    result is [LU], not [NONE]. *)
Lemma tag_kept_on_lu_factored :
  _decomposition_type (scale 2 lu_factored) = LU /\
  add 2 lu_factored (DenseMatrix_ctor 1 1)
  = Ok {| _m := 1; _n := 1; _val := [3]; _decomposition_type := LU |} /\
  _decomposition_type (op_assign (DenseMatrix_ctor 1 1) lu_factored) = LU /\
  LU <> NONE.
Proof. repeat split. discriminate. Qed.

(** [add] on a 1-by-2 receiver and a 2-by-1 argument: the extents differ and
    the call returns the elementwise result instead of failing. *)
Lemma add_differing_extents :
  (_m row12 =? _m col21) = false /\
  (_n row12 =? _n col21) = false /\
  add 1 row12 col21
  = Ok {| _m := 1; _n := 2; _val := [11; 22]; _decomposition_type := NONE |}.
Proof. repeat split. Qed.

Lemma add_unchecked_axpy_witness :
  exists R,
    add 1 row12 col21 = Ok R /\
    _m R = _m row12 /\ _n R = _n row12 /\
    _decomposition_type R = _decomposition_type row12 /\
    length (_val R) = length (_val row12) /\
    forall k a b, _val row12 !! k = Some a -> _val col21 !! k = Some b ->
      _val R !! k = Some (s_add a (s_mul 1 b)).
Proof.
  apply (add_unchecked_axpy 1 row12 col21). left. simpl. lia.
Defined.

Lemma resize_zero_fills_witness :
  op_call (resize 2 2 lu_factored) 1 1 = Ok 0.
Proof.
  destruct (resize_zero_fills lu_factored 2 2) as (_ & _ & _ & _ & _ & Hread).
  apply Hread; unfold UInt.in_range, UInt.modulus; simpl; lia.
Defined.

Lemma element_access_row_major_witness :
  (1 * _n A23 + 2 < _m A23 * _n A23 /\
   element_ref A23 1 2 = Ok (Z.to_nat (1 * _n A23 + 2)) /\
   (exists y, _val A23 !! Z.to_nat (1 * _n A23 + 2) = Some y /\
              op_call A23 1 2 = Ok y) /\
   op_call_write A23 1 2 7
   = Ok (with_val A23 (<[Z.to_nat (1 * _n A23 + 2) := 7]> (_val A23)))) /\
  (element_ref A23 2 0 = Err AssertionFailed /\
   op_call A23 2 0 = Err AssertionFailed /\
   op_call_write A23 2 0 7 = Err AssertionFailed).
Proof.
  split.
  - apply (element_access_row_major A23 1 2 7
             (proj1 A23_well_formed) (proj2 A23_well_formed));
      simpl; lia.
  - apply (element_access_row_major A23 2 0 7
             (proj1 A23_well_formed) (proj2 A23_well_formed)).
    simpl. lia.
Defined.

Lemma l1_norm_transpose_duality_witness :
  exists r, l1_norm A23 = Ok r /\ linfty_norm (transposed A23) = Ok r.
Proof.
  apply (l1_norm_transpose_duality A23 (transposed A23) A23_well_formed).
  - simpl. lia.
  - simpl. lia.
  - split; [reflexivity|]. split; [reflexivity|].
    intros i j Hi Hj. simpl in Hi, Hj.
    assert (Hi' : i = 0 \/ i = 1 \/ i = 2) by lia.
    assert (Hj' : j = 0 \/ j = 1) by lia.
    destruct Hi' as [-> | [-> | ->]]; destruct Hj' as [-> | ->]; reflexivity.
Defined.

Lemma min_max_real_parts_witness :
  exists lo hi,
    min A23 = Ok lo /\ max A23 = Ok hi /\
    lo ∈ (genius_real <$> _val A23) /\
    hi ∈ (genius_real <$> _val A23) /\
    forall x, x ∈ _val A23 ->
      r_lt (genius_real x) lo = false /\ r_lt hi (genius_real x) = false.
Proof.
  apply (min_max_real_parts A23 Z_ltb_strict_total_order A23_well_formed);
    simpl; lia.
Defined.

Lemma op_add_assign_is_add_one_witness :
  op_add_assign row12 col21 = add 1 row12 col21.
Proof.
  apply (@op_add_assign_is_add_one Z Z Z_scalar row12 col21).
  intros x. simpl. apply Z.mul_1_l.
Defined.

Lemma swap_exchanges_states_witness :
  swap 0 1 (<[0%nat := lu_factored]> {[1%nat := A23]}) !! 0%nat = Some A23 /\
  swap 0 1 (<[0%nat := lu_factored]> {[1%nat := A23]}) !! 1%nat
  = Some lu_factored /\
  (forall k, k <> 0%nat -> k <> 1%nat ->
     swap 0 1 (<[0%nat := lu_factored]> {[1%nat := A23]}) !! k
     = (<[0%nat := lu_factored]> {[1%nat := A23]} : gmap nat _) !! k) /\
  swap 0 1 (swap 0 1 (<[0%nat := lu_factored]> {[1%nat := A23]}))
  = <[0%nat := lu_factored]> {[1%nat := A23]}.
Proof.
  apply (swap_exchanges_states 0 1 (<[0%nat := lu_factored]> {[1%nat := A23]})
           lu_factored A23); reflexivity.
Defined.

(** The pivoting scenario of the spec: A = [[4,3],[6,3]], b = [1,1].  The
    second row is swapped into first position and the solution is
    [0, 1/3]. *)
Example lu_solve_pivot_scenario :
  exists M' x0 x1,
    lu_solve true A4363 [QArith_base.Qmake 1 1; QArith_base.Qmake 1 1]
    = Ok (M', [x0; x1]) /\
    op_call M' 0 0 = Ok (QArith_base.Qmake 6 1) /\
    QArith_base.Qeq x0 (QArith_base.Qmake 0 1) /\
    QArith_base.Qeq x1 (QArith_base.Qmake 1 3).
Proof.
  do 3 eexists. split; [vm_compute; reflexivity|].
  split; [reflexivity|]. split; reflexivity.
Qed.

(** The guards on concrete input: [[4,3],[6,3]] carrying Cholesky factors
    is not LU-solved, and a right-hand side of the wrong length is
    refused. *)
Example lu_solve_guards_scenario :
  lu_solve true (set_decomposition_type CHOLESKY A4363)
           [QArith_base.Qmake 1 1; QArith_base.Qmake 1 1]
  = Err DecompositionStateError /\
  lu_solve true A4363 [QArith_base.Qmake 1 1] = Err DimensionError /\
  lu_solve false A01 [] = Err DimensionError.
Proof. repeat split. Qed.

Lemma lu_solve_zero_pivot_witness :
  lu_solve false A01 [QArith_base.Qmake 1 1; QArith_base.Qmake 2 1]
  = Err SingularMatrixError.
Proof.
  apply (proj1 lu_solve_zero_pivot _ _ _ A01 _ 0 (A01, [])
           (QArith_base.Qmake 0 1)).
  - discriminate.
  - reflexivity.
  - reflexivity.
  - simpl. lia.
  - reflexivity.
  - reflexivity.
  - reflexivity.
Defined.

(** * Further properties of the operations *)

(** ** Accessors against [zero], [scale] and writes *)

Section accessor_facts.

Context {T Real : Type} `{Scalar T Real}.

Implicit Types M A B R other : DenseMatrix T.

(** A reference handed out by [operator()] lies inside the buffer. *)
Lemma element_ref_lt M i j (k : nat) :
  element_ref M i j = Ok k -> (k < length (_val M))%nat.
Proof.
  unfold element_ref, size.
  destruct (UInt.mul i j <? Z.of_nat (length (_val M))); [|discriminate].
  destruct (i <? _m M); [|discriminate].
  destruct (j <? _n M); [|discriminate]. simpl.
  pose proof (UInt.wrap_in_range (UInt.mul i (_n M) + j)) as Hw.
  unfold UInt.in_range in Hw. fold (UInt.add (UInt.mul i (_n M)) j) in Hw.
  destruct (Z.ltb_spec (UInt.add (UInt.mul i (_n M)) j)
              (Z.of_nat (length (_val M)))) as [Hlt|Hge]; [|discriminate].
  intros [= <-]. lia.
Qed.

(** [operator()] looks at the extents and the length of the buffer only. *)
Lemma element_ref_same_shape M M' i j :
  _m M' = _m M -> _n M' = _n M -> length (_val M') = length (_val M) ->
  element_ref M' i j = element_ref M i j.
Proof.
  intros Hm Hn Hlen. unfold element_ref, size. rewrite Hm, Hn, Hlen.
  reflexivity.
Qed.

Lemma fill_zero_replicate (v : list T) :
  fill_zero v = replicate (length v) s_zero.
Proof.
  induction v as [|x v IH]; [reflexivity|].
  change (fill_zero (x :: v)) with (s_zero :: fill_zero v).
  rewrite IH. reflexivity.
Qed.

Lemma injective_offset (n i j i' j' : Z) :
  0 <= j < n -> 0 <= j' < n -> i * n + j = i' * n + j' -> i = i' /\ j = j'.
Proof.
  intros Hj Hj' Heq.
  assert (Hi : i = i') by nia. subst i'. split; [reflexivity | lia].
Qed.

End accessor_facts.

(** ** [resize], [zero] and [scale] seen through the accessor *)

Section fill_and_scale.

Context {T Real : Type} `{Scalar T Real}.

Implicit Types M A B R other : DenseMatrix T.

Lemma resize_val m n M :
  _val (resize m n M) = replicate (Z.to_nat (UInt.mul m n)) s_zero.
Proof.
  unfold resize, zero. simpl.
  rewrite fill_zero_replicate, length_vector_resize. reflexivity.
Qed.

Lemma resize_record m n M :
  resize m n M
  = {| _m := m; _n := n;
       _val := replicate (Z.to_nat (UInt.mul m n)) s_zero;
       _decomposition_type := NONE |}.
Proof.
  rewrite <- (resize_val m n M). reflexivity.
Qed.

Lemma scale_record factor M :
  scale factor M = with_val M ((fun x => s_mul x factor) <$> _val M).
Proof.
  unfold scale. f_equal.
  exact (scale_loop (fun x => s_mul x factor) (_val M) []).
Qed.

Lemma index_fmap {X Y} (g : X -> Y) (v : list X) (k : nat) :
  index (g <$> v) k = (x ← index v k; Ok (g x)).
Proof.
  unfold index. rewrite list_lookup_fmap.
  destruct (v !! k); reflexivity.
Qed.

(** X1: for extents that are [unsigned int] values, the matrix [resize]
    leaves has a buffer of exactly m·n elements if and only if the product
    m·n is below 2^32; above, the buffer is sized by the wrapped product. *)
Theorem resize_well_formed_iff m n M :
  UInt.in_range m -> UInt.in_range n ->
  (well_formed (resize m n M) <-> m * n < UInt.modulus).
Proof.
  intros Hm Hn. split.
  - intros Hwf. pose proof (well_formed_product_small _ Hwf) as Hsmall.
    simpl in Hsmall. lia.
  - intros Hmn. apply resize_well_formed; assumption.
Qed.

(** X2: [resize] forgets everything the matrix held: the result depends on
    [m] and [n] only, it is the matrix the constructor builds for these
    extents, and its buffer is [m * n] (in [unsigned int]) zeros; resizing
    again to the same extents changes nothing. *)
Theorem resize_forgets m n M M' :
  resize m n M = DenseMatrix_ctor m n /\
  resize m n M = resize m n M' /\
  resize m n (resize m n M) = resize m n M /\
  _val (resize m n M) = replicate (Z.to_nat (UInt.mul m n)) s_zero.
Proof.
  unfold DenseMatrix_ctor. rewrite !resize_record.
  repeat split.
Qed.

(** X3: [zero] keeps the extents and the length of the buffer, makes every
    element zero, and is idempotent; an access [(i,j)] to the zeroed matrix
    fails exactly as it did before and otherwise reads zero. *)
Theorem zero_through_accessor M i j :
  _m (zero M) = _m M /\ _n (zero M) = _n M /\
  _val (zero M) = replicate (length (_val M)) s_zero /\
  zero (zero M) = zero M /\
  op_call (zero M) i j = (k ← element_ref M i j; Ok s_zero).
Proof.
  split; [reflexivity|]. split; [reflexivity|].
  split; [apply fill_zero_replicate|]. split.
  - unfold zero. simpl. f_equal.
    rewrite !fill_zero_replicate, length_replicate. reflexivity.
  - unfold op_call.
    rewrite (element_ref_same_shape M (zero M) i j eq_refl eq_refl
               (length_fill_zero _)).
    destruct (element_ref M i j) as [k|e] eqn:Hk; [|reflexivity]. simpl.
    apply index_lookup. apply fill_zero_lookup.
    exact (element_ref_lt M i j k Hk).
Qed.

(** X4: [scale] keeps the extents and the tag and multiplies every element
    of the buffer by [factor] on the right; an access [(i,j)] to the scaled
    matrix fails exactly as it did before and otherwise reads the old entry
    times [factor]. *)
Theorem scale_through_accessor (factor : T) M i j :
  _m (scale factor M) = _m M /\ _n (scale factor M) = _n M /\
  _decomposition_type (scale factor M) = _decomposition_type M /\
  _val (scale factor M) = (fun x => s_mul x factor) <$> _val M /\
  op_call (scale factor M) i j = (x ← op_call M i j; Ok (s_mul x factor)).
Proof.
  rewrite scale_record.
  split; [reflexivity|]. split; [reflexivity|]. split; [reflexivity|].
  split; [reflexivity|].
  unfold op_call.
  rewrite (element_ref_same_shape M (with_val M _) i j eq_refl eq_refl
             (length_fmap _ _)).
  destruct (element_ref M i j) as [k|e]; [|reflexivity]. simpl.
  apply index_fmap.
Qed.

(** X5: two [scale] calls compose to one with the product of the factors,
    and scaling by one changes nothing, when the scalar multiplication is
    associative and one is its right identity. *)
Theorem scale_compose (f g : T) M :
  (forall x y z : T, s_mul (s_mul x y) z = s_mul x (s_mul y z)) ->
  (forall x : T, s_mul x s_one = x) ->
  scale g (scale f M) = scale (s_mul f g) M /\ scale s_one M = M.
Proof.
  intros Hassoc Hone. rewrite !scale_record. split.
  - unfold with_val. simpl. f_equal.
    rewrite <- list_fmap_compose. apply list_fmap_ext.
    intros k x _. simpl. apply Hassoc.
  - destruct M as [m n v tag]. unfold with_val. simpl. f_equal.
    rewrite <- (list_fmap_id v) at 2. apply list_fmap_ext.
    intros k x _. simpl. apply Hone.
Qed.

(** X6: writing through [operator()] at an in-range position of a
    well-formed matrix returns, keeps the matrix well-formed and its tag
    untouched; reading the same position then gives the written value and
    every other in-range position reads as before. *)
Theorem write_then_read M i j (x : T) :
  well_formed M -> 0 <= i < _m M -> 0 <= j < _n M ->
  exists R,
    op_call_write M i j x = Ok R /\
    well_formed R /\
    _m R = _m M /\ _n R = _n M /\
    _decomposition_type R = _decomposition_type M /\
    op_call R i j = Ok x /\
    forall i' j', 0 <= i' < _m M -> 0 <= j' < _n M ->
      (i' <> i \/ j' <> j) -> op_call R i' j' = op_call M i' j'.
Proof.
  intros Hwf Hi Hj.
  pose proof (offset_in_range M i j Hwf Hi Hj) as Hoff.
  pose proof (element_ref_in_range M i j Hwf Hi Hj) as Href.
  pose proof (element_ref_lt M i j _ Href) as Hlt.
  set (k := Z.to_nat (i * _n M + j)) in *.
  exists (with_val M (<[k := x]> (_val M))).
  assert (Hshape : forall i' j',
    element_ref (with_val M (<[k := x]> (_val M))) i' j'
    = element_ref M i' j').
  { intros i' j'. apply element_ref_same_shape; try reflexivity.
    simpl. apply length_insert. }
  split; [unfold op_call_write; rewrite Href; reflexivity|].
  split.
  { destruct Hwf as [(Hm & Hn & Hsz) Hmn].
    unfold well_formed, storage_ok, size in *. simpl.
    rewrite length_insert. tauto. }
  split; [reflexivity|]. split; [reflexivity|]. split; [reflexivity|].
  split.
  - unfold op_call. rewrite Hshape, Href. simpl.
    apply index_lookup. apply list_lookup_insert_eq. exact Hlt.
  - intros i' j' Hi' Hj' Hne. unfold op_call. rewrite Hshape.
    rewrite (element_ref_in_range M i' j' Hwf Hi' Hj'). simpl.
    unfold index. rewrite list_lookup_insert_ne; [reflexivity|].
    pose proof (offset_in_range M i' j' Hwf Hi' Hj') as Hoff'.
    intros Heq. subst k.
    assert (Hz : i * _n M + j = i' * _n M + j') by lia.
    destruct (injective_offset (_n M) i j i' j' Hj Hj' Hz) as [-> ->].
    destruct Hne as [Hne | Hne]; apply Hne; reflexivity.
Qed.

End fill_and_scale.

(** ** [add] and [operator+=] *)

Section axpy.

Context {T Real : Type} `{Scalar T Real}.

Implicit Types M A B R other : DenseMatrix T.

Lemma op_add_assign_short A B :
  (length (_val B) < length (_val A))%nat ->
  op_add_assign A B = Err OutOfRange.
Proof.
  intros Hlen. unfold op_add_assign.
  rewrite (axpy_loop_short s_add (_val A) (_val B) [] [] eq_refl Hlen).
  reflexivity.
Qed.

(** X7: [add] returns exactly when the argument's buffer is at least as long
    as the receiver's, whatever the extents of the two matrices are, and
    then its result is the receiver with [A[k] + factor * B[k]] at every
    position; with a shorter argument the loop reads past the end of the
    argument's buffer. *)
Theorem add_outcome (factor : T) A B :
  add factor A B
  = if decide (length (_val A) <= length (_val B))%nat
    then Ok (with_val A (zip_with (fun a b => s_add a (s_mul factor b))
                                  (_val A) (_val B)))
    else Err OutOfRange.
Proof.
  destruct (decide (length (_val A) <= length (_val B))%nat) as [Hle|Hgt].
  - apply add_ok. exact Hle.
  - apply add_short. lia.
Qed.

(** X8: [operator+=] checks no extents either: it returns exactly when the
    argument's buffer is at least as long as the receiver's, with
    [A[k] + B[k]] at every position and the extents and the tag of the
    receiver unchanged; with a shorter argument it reads past the end of
    the argument's buffer. *)
Theorem op_add_assign_outcome A B :
  op_add_assign A B
  = if decide (length (_val A) <= length (_val B))%nat
    then Ok {| _m := _m A; _n := _n A;
               _val := zip_with s_add (_val A) (_val B);
               _decomposition_type := _decomposition_type A |}
    else Err OutOfRange.
Proof.
  destruct (decide (length (_val A) <= length (_val B))%nat) as [Hle|Hgt].
  - apply op_add_assign_ok. exact Hle.
  - apply op_add_assign_short. lia.
Qed.

(** X9: for two well-formed matrices of the same extents, [add] returns a
    well-formed matrix of these extents whose entry (i,j), read through
    [operator()], is [A(i,j) + factor * B(i,j)] for every in-range i, j. *)
Theorem add_entrywise (factor : T) A B :
  well_formed A -> well_formed B -> _m A = _m B -> _n A = _n B ->
  exists R,
    add factor A B = Ok R /\
    well_formed R /\ _m R = _m A /\ _n R = _n A /\
    forall i j, 0 <= i < _m A -> 0 <= j < _n A ->
      exists a b,
        op_call A i j = Ok a /\ op_call B i j = Ok b /\
        op_call R i j = Ok (s_add a (s_mul factor b)).
Proof.
  intros HA HB Hm Hn.
  assert (Hlen : length (_val A) = length (_val B))
    by (apply same_extents_same_length; (apply HA || apply HB || assumption)).
  eexists. split; [apply add_ok; lia|].
  assert (Hzip : length (zip_with (fun a b => s_add a (s_mul factor b))
                           (_val A) (_val B)) = length (_val A))
    by (rewrite length_zip_with; lia).
  split.
  { destruct HA as [(HmA & HnA & HszA) HmnA].
    unfold well_formed, storage_ok, size in *. simpl. rewrite Hzip. tauto. }
  split; [reflexivity|]. split; [reflexivity|].
  intros i j Hi Hj.
  destruct (op_call_in_range A i j HA Hi Hj) as (a & Ha & HcallA).
  destruct (op_call_in_range B i j HB) as (b & Hb & HcallB); [lia | lia |].
  exists a, b. split; [exact HcallA|]. split; [exact HcallB|].
  unfold op_call.
  rewrite (element_ref_same_shape A (with_val A _) i j eq_refl eq_refl Hzip).
  rewrite (element_ref_in_range A i j HA Hi Hj). simpl.
  apply index_lookup. rewrite lookup_zip_with, Ha. simpl.
  rewrite Hn, Hb. reflexivity.
Qed.

(** X10: the shape the constructor establishes (extents that are
    [unsigned int] values, a buffer of [_m * _n] elements with the product
    taken in [unsigned int]) is established by the constructor and by
    [resize] and kept by [zero], [scale], [operator*=], assignment, copy
    construction, writes through [operator()], and by [add] and
    [operator+=] whenever they return. *)
Theorem storage_ok_kept M other (m n i j : Z) (factor x : T)
    (indet : DecompositionType) :
  storage_ok M -> storage_ok other ->
  UInt.in_range m -> UInt.in_range n ->
  storage_ok (DenseMatrix_ctor (T:=T) m n) /\
  storage_ok (resize m n M) /\
  storage_ok (zero M) /\
  storage_ok (scale factor M) /\
  storage_ok (op_mul_assign factor M) /\
  storage_ok (op_assign M other) /\
  storage_ok (DenseMatrix_copy_ctor indet other) /\
  (forall R, op_call_write M i j x = Ok R -> storage_ok R) /\
  (forall R, add factor M other = Ok R -> storage_ok R) /\
  (forall R, op_add_assign M other = Ok R -> storage_ok R).
Proof.
  intros HM Hother Hm Hn.
  split; [apply ctor_storage_ok; assumption|].
  split; [apply resize_storage_ok; assumption|].
  split; [apply zero_storage_ok; assumption|].
  split; [apply scale_storage_ok; assumption|].
  split; [apply scale_storage_ok; assumption|].
  split; [apply op_assign_storage_ok; assumption|].
  split; [apply copy_ctor_storage_ok; assumption|].
  split; [|split].
  - intros R. unfold op_call_write.
    destruct (element_ref M i j) as [k|e]; [|discriminate]. simpl.
    intros [= <-]. unfold storage_ok, size in *. simpl.
    rewrite length_insert. exact HM.
  - intros R Hadd. exact (add_storage_ok factor M other R HM Hadd).
  - intros R. rewrite op_add_assign_outcome.
    destruct (decide _) as [Hle|Hgt]; [|discriminate].
    intros [= <-]. unfold storage_ok, size in *. simpl.
    rewrite length_zip_with.
    replace (length (_val M) `min` length (_val other))%nat
      with (length (_val M)) by lia.
    exact HM.
Qed.

(** X11: whenever the buffer has m·n elements, however many, an in-range
    access [(i,j)] passes the three assertions and stays inside the buffer;
    it reads the element at the offset i·n + j reduced modulo 2^32, the
    result of the [unsigned int] index arithmetic. *)
Theorem access_offset_modulo M i j :
  UInt.in_range (_m M) -> UInt.in_range (_n M) -> size M = _m M * _n M ->
  0 <= i < _m M -> 0 <= j < _n M ->
  exists y,
    _val M !! Z.to_nat ((i * _n M + j) mod 2 ^ 32) = Some y /\
    op_call M i j = Ok y.
Proof.
  intros Hm Hn Hsz Hi Hj.
  pose proof (element_ref_wrapped M i j Hm Hn Hsz Hi Hj) as Href.
  pose proof (element_ref_lt M i j _ Href) as Hlt.
  destruct (lookup_lt_is_Some_2 _ _ Hlt) as [y Hy].
  exists y. split; [exact Hy|].
  unfold op_call. rewrite Href. simpl. apply index_lookup. exact Hy.
Qed.

End axpy.

(** ** Empty matrices *)

Section empty.

Context {T Real : Type} `{Scalar T Real}.

Implicit Types M : DenseMatrix T.

(** X12: a matrix in the shape the constructor establishes that has no row
    or no column has an empty buffer; every access to it fails the first
    assertion of [operator()], whatever i and j are, and [min], [max],
    [l1_norm] and [linfty_norm] fail an assertion as well. *)
Theorem empty_matrix_rejects M i j :
  storage_ok M -> _m M = 0 \/ _n M = 0 ->
  _val M = [] /\
  op_call M i j = Err AssertionFailed /\
  transpose M i j = Err AssertionFailed /\
  min M = Err AssertionFailed /\ max M = Err AssertionFailed /\
  l1_norm M = Err AssertionFailed /\ linfty_norm M = Err AssertionFailed.
Proof.
  intros (Hm & Hn & Hsz) Hempty.
  assert (Hsize : size M = 0).
  { rewrite Hsz. unfold UInt.mul.
    replace (_m M * _n M) with 0 by (destruct Hempty as [-> | ->]; lia).
    reflexivity. }
  assert (Hcall : forall i' j', op_call M i' j' = Err AssertionFailed).
  { intros i' j'. unfold op_call, element_ref. rewrite Hsize.
    pose proof (UInt.wrap_in_range (i' * j')) as Hw.
    unfold UInt.in_range in Hw. fold (UInt.mul i' j') in Hw.
    replace (UInt.mul i' j' <? 0) with false
      by (symmetry; apply Z.ltb_ge; lia).
    reflexivity. }
  split.
  { unfold size in Hsize.
    destruct (_val M); [reflexivity | simpl in Hsize; lia]. }
  split; [apply Hcall|]. split; [apply Hcall|].
  unfold min, max, l1_norm, linfty_norm.
  destruct Hempty as [-> | ->]; simpl.
  - repeat split.
  - destruct (negb (_m M =? 0)); repeat split.
Qed.

End empty.

(** ** [swap] is symmetric *)

Section swap_more.

Context {T Real : Type} `{Scalar T Real}.

Implicit Types P Q M : DenseMatrix T.
Implicit Types st : gmap nat (DenseMatrix T).

(** X13: [swap] does not depend on which of the two matrices is the
    receiver, swapping a matrix with itself leaves the store as it was, and
    when every matrix of the store has the shape the constructor
    establishes, so has every matrix after the swap. *)
Theorem swap_symmetric (a b : nat) st P Q :
  st !! a = Some P -> st !! b = Some Q ->
  swap a b st = swap b a st /\
  swap a a st = st /\
  (map_Forall (fun _ M => storage_ok M) st ->
   map_Forall (fun _ M => storage_ok M) (swap a b st)).
Proof.
  intros HP HQ.
  destruct (swap_lookup a b st P Q HP HQ) as (Ha & Hb & Hk).
  destruct (swap_lookup b a st Q P HQ HP) as (Hb' & Ha' & Hk').
  destruct (swap_lookup a a st P P HP HP) as (Haa & _ & Hkk).
  split; [|split].
  - apply map_eq. intros k.
    destruct (decide (k = a)) as [-> | Hka]; [congruence|].
    destruct (decide (k = b)) as [-> | Hkb]; [congruence|].
    rewrite Hk, Hk' by assumption. reflexivity.
  - apply map_eq. intros k.
    destruct (decide (k = a)) as [-> | Hka]; [congruence|].
    apply Hkk; assumption.
  - intros Hall k R HR.
    destruct (decide (k = a)) as [-> | Hka].
    + apply (Hall b). congruence.
    + destruct (decide (k = b)) as [-> | Hkb].
      * apply (Hall a). congruence.
      * apply (Hall k). rewrite <- Hk by assumption. exact HR.
Qed.

End swap_more.

(** ** The largest column and row sums *)

Section best.

Context {Real : Type}.

Variable lt : Real -> Real -> bool.
Hypothesis lt_irrefl : forall a, lt a a = false.
Hypothesis lt_trans :
  forall a b c, lt a b = true -> lt b c = true -> lt a c = true.
Hypothesis lt_total : forall a b, lt a b = false -> lt b a = false -> a = b.

(** A loop that keeps the better of the running value and the value
    computed for each index ends with a value that was kept from the start
    or computed for some index, and that is not above any of them. *)
Lemma best_scan (get : Z -> outcome Real) (l : list Z) (start : Real) :
  (forall k, k ∈ l -> exists c, get k = Ok c) ->
  exists r,
    foldM (fun acc k => c ← get k; Ok (if lt acc c then acc else c)) l start
    = Ok r /\
    (r = start \/ exists k, k ∈ l /\ get k = Ok r) /\
    not_above lt r start /\
    forall k c, k ∈ l -> get k = Ok c -> not_above lt r c.
Proof.
  revert start. induction l as [|k l IH]; intros start Hget.
  - exists start. split; [reflexivity|]. split; [left; reflexivity|].
    split; [apply not_above_refl; assumption|].
    intros k c Hk. inversion Hk.
  - destruct (Hget k) as [c Hc]; [left|].
    destruct (IH (keep lt start c)) as (r & Hr & Hfrom & Hstart & Hall).
    { intros k' Hk'. apply Hget. right. exact Hk'. }
    exists r. split; [simpl; rewrite Hc; simpl; exact Hr|].
    assert (Hacc : not_above lt (keep lt start c) start)
      by (apply keep_not_above_acc; assumption).
    assert (Hcur : not_above lt (keep lt start c) c)
      by (apply keep_not_above_current; assumption).
    split; [|split].
    + destruct Hfrom as [-> | (k' & Hk' & Hgk')].
      * destruct (keep_cases lt start c) as [-> | ->];
          [left; reflexivity | right; exists k; split; [left | exact Hc]].
      * right. exists k'. split; [right; exact Hk' | exact Hgk'].
    + eapply not_above_trans; eassumption.
    + intros k' c' Hk' Hc'. apply elem_of_cons in Hk' as [-> | Hk'].
      * assert (c' = c) as -> by congruence.
        eapply not_above_trans; eassumption.
      * eapply Hall; eassumption.
Qed.

End best.

Section norm_values.

Context {T Real : Type} `{Scalar T Real}.

Implicit Types M A B : DenseMatrix T.

Lemma l1_norm_column_sums M :
  l1_norm M
  = (assert (negb (_m M =? 0));; assert (negb (_n M =? 0));;
     first ← column_sum M 0;
     foldM (fun my_max j =>
              c ← column_sum M j;
              Ok (if r_lt c my_max then my_max else c))
           (seqZ 1 (_n M - 1)) first).
Proof. reflexivity. Qed.

Lemma linfty_norm_row_sums M :
  linfty_norm M
  = (assert (negb (_m M =? 0));; assert (negb (_n M =? 0));;
     first ← row_sum M 0;
     foldM (fun my_max i =>
              c ← row_sum M i;
              Ok (if r_lt c my_max then my_max else c))
           (seqZ 1 (_m M - 1)) first).
Proof. reflexivity. Qed.

Lemma column_sum_ok M j :
  well_formed M -> 0 <= j < _n M -> exists c, column_sum M j = Ok c.
Proof.
  intros Hwf Hj. unfold column_sum.
  apply (line_sum_ok (fun i => op_call M i j)).
  intros k Hk. exists (entry M k j). apply op_call_entry; assumption.
Qed.

Lemma row_sum_ok M i :
  well_formed M -> 0 <= i < _m M -> exists c, row_sum M i = Ok c.
Proof.
  intros Hwf Hi. unfold row_sum.
  apply (line_sum_ok (fun j => op_call M i j)).
  intros k Hk. exists (entry M i k). apply op_call_entry; assumption.
Qed.

(** The outer loop of both norms, over the sums [sum k] of the lines
    [0 .. count - 1]. *)
Lemma largest_sum (sum : Z -> outcome Real) (count : Z) :
  strict_total_order (r_lt (T:=T)) ->
  0 < count ->
  (forall k, 0 <= k < count -> exists c, sum k = Ok c) ->
  exists r,
    (first ← sum 0;
     foldM (fun my_max k =>
              c ← sum k; Ok (if r_lt c my_max then my_max else c))
           (seqZ 1 (count - 1)) first) = Ok r /\
    (exists k, 0 <= k < count /\ sum k = Ok r) /\
    forall k, 0 <= k < count -> exists c, sum k = Ok c /\ r_lt r c = false.
Proof.
  intros Hord Hcount Hsum.
  destruct (flip_strict_total_order _ Hord) as (Hirr & Htr & Htot).
  destruct (Hsum 0) as [first Hfirst]; [lia|]. rewrite Hfirst. simpl.
  destruct (best_scan (fun a b => r_lt b a) Hirr Htr Htot sum
              (seqZ 1 (count - 1)) first)
    as (r & Hr & Hfrom & Hstart & Hall).
  { intros k Hk. apply elem_of_seqZ in Hk. apply Hsum. lia. }
  exists r. split; [exact Hr|]. split.
  - destruct Hfrom as [-> | (k & Hk & Hgk)].
    + exists 0. split; [lia | exact Hfirst].
    + apply elem_of_seqZ in Hk. exists k. split; [lia | exact Hgk].
  - intros k Hk. destruct (Hsum k Hk) as [c Hc]. exists c.
    split; [exact Hc|].
    destruct (Z.eq_dec k 0) as [-> | Hne].
    + assert (c = first) as -> by congruence. exact Hstart.
    + apply (Hall k c); [apply elem_of_seqZ; lia | exact Hc].
Qed.

(** X14: on a well-formed matrix with at least one row and one column,
    [l1_norm] returns the sum of absolute values of one of the columns, and
    no column has a larger sum; with no row or no column it fails an
    assertion.  The comparison of [Real] is a strict total order. *)
Theorem l1_norm_largest_column_sum M :
  strict_total_order (r_lt (T:=T)) ->
  well_formed M ->
  (_m M <> 0 -> _n M <> 0 ->
     exists r,
       l1_norm M = Ok r /\
       (exists j, 0 <= j < _n M /\ column_sum M j = Ok r) /\
       forall j, 0 <= j < _n M ->
         exists c, column_sum M j = Ok c /\ r_lt r c = false) /\
  (_m M = 0 \/ _n M = 0 -> l1_norm M = Err AssertionFailed).
Proof.
  intros Hord Hwf. split.
  - intros Hm Hn. pose proof Hwf as [(Hmr & Hnr & _) _].
    unfold UInt.in_range in *.
    rewrite l1_norm_column_sums. pass_extent_asserts M.
    apply (largest_sum (column_sum M) (_n M) Hord); [lia|].
    intros k Hk. apply column_sum_ok; assumption.
  - intros [Hm | Hn]; unfold l1_norm; [rewrite Hm | rewrite Hn]; simpl.
    + reflexivity.
    + destruct (negb (_m M =? 0)); reflexivity.
Qed.

(** X15: on a well-formed matrix with at least one row and one column,
    [linfty_norm] returns the sum of absolute values of one of the rows, and
    no row has a larger sum; with no row or no column it fails an
    assertion.  The comparison of [Real] is a strict total order. *)
Theorem linfty_norm_largest_row_sum M :
  strict_total_order (r_lt (T:=T)) ->
  well_formed M ->
  (_m M <> 0 -> _n M <> 0 ->
     exists r,
       linfty_norm M = Ok r /\
       (exists i, 0 <= i < _m M /\ row_sum M i = Ok r) /\
       forall i, 0 <= i < _m M ->
         exists c, row_sum M i = Ok c /\ r_lt r c = false) /\
  (_m M = 0 \/ _n M = 0 -> linfty_norm M = Err AssertionFailed).
Proof.
  intros Hord Hwf. split.
  - intros Hm Hn. pose proof Hwf as [(Hmr & Hnr & _) _].
    unfold UInt.in_range in *.
    rewrite linfty_norm_row_sums. pass_extent_asserts M.
    apply (largest_sum (row_sum M) (_m M) Hord); [lia|].
    intros k Hk. apply row_sum_ok; assumption.
  - intros [Hm | Hn]; unfold linfty_norm; [rewrite Hm | rewrite Hn]; simpl.
    + reflexivity.
    + destruct (negb (_m M =? 0)); reflexivity.
Qed.

(** X16: being a transpose is symmetric, and [linfty_norm] of a non-empty
    matrix is [l1_norm] of any transpose of it: the largest row sum of [A]
    is computed as the largest column sum of the transpose, with the same
    result or the same failure. *)
Theorem linfty_is_l1_of_transpose A B :
  0 < _m A -> 0 < _n A -> is_transpose_of B A ->
  is_transpose_of A B /\ linfty_norm A = l1_norm B.
Proof.
  intros Hm Hn Htr.
  assert (Hsym : is_transpose_of A B).
  { destruct Htr as (HmB & HnB & Hacc).
    split; [symmetry; exact HnB|]. split; [symmetry; exact HmB|].
    intros i j Hi Hj. unfold transpose in *. symmetry. apply Hacc; lia. }
  split; [exact Hsym|].
  destruct Htr as (HmB & HnB & _).
  symmetry. apply l1_is_linfty_of_transpose; [lia | lia | exact Hsym].
Qed.

(** X17: on a well-formed matrix with at least one row and one column the
    value of [max] is never below the value of [min], and the two are equal
    exactly when all entries have the same real part.  The comparison of
    [Real] is a strict total order. *)
Theorem min_not_above_max M :
  strict_total_order (r_lt (T:=T)) ->
  well_formed M -> _m M <> 0 -> _n M <> 0 ->
  exists lo hi,
    min M = Ok lo /\ max M = Ok hi /\
    r_lt hi lo = false /\
    (lo = hi <->
     forall x y, x ∈ _val M -> y ∈ _val M -> genius_real x = genius_real y).
Proof.
  intros Hord Hwf Hm Hn.
  destruct (first_entry M Hwf Hm Hn) as [Hcall Hin].
  pose proof Hord as (Hirr & Htr & Htot).
  destruct (scan_all r_lt Hirr Htr Htot M _ Hwf Hin)
    as (lo & Hlo & Hloin & Hlob).
  pose proof (flip_strict_total_order _ Hord) as (Hirr' & Htr' & Htot').
  destruct (scan_all (fun a b => r_lt b a) Hirr' Htr' Htot' M _ Hwf Hin)
    as (hi & Hhi & Hhiin & Hhib).
  unfold not_above in Hlob, Hhib.
  exists lo, hi. rewrite min_scan, max_scan. pass_extent_asserts M.
  rewrite Hcall. simpl.
  split; [exact Hlo|]. split; [exact Hhi|].
  apply list_elem_of_fmap in Hloin as (xlo & -> & Hxlo).
  apply list_elem_of_fmap in Hhiin as (xhi & -> & Hxhi).
  split; [apply (Hlob xhi Hxhi)|].
  split.
  - intros Heq x y Hx Hy.
    assert (Hall : forall z, z ∈ _val M -> genius_real z = genius_real xlo).
    { intros z Hz. apply Htot; [apply (Hlob z Hz)|].
      rewrite Heq. apply (Hhib z Hz). }
    rewrite (Hall x Hx), (Hall y Hy). reflexivity.
  - intros Hall. apply Hall; assumption.
Qed.

End norm_values.

(** ** The further properties on concrete matrices *)

Lemma A23_storage_ok : storage_ok A23.
Proof. exact (proj1 A23_well_formed). Defined.

Lemma A23_transposed_is_transpose : is_transpose_of (transposed A23) A23.
Proof.
  split; [reflexivity|]. split; [reflexivity|].
  intros i j Hi Hj. simpl in Hi, Hj.
  assert (Hi' : i = 0 \/ i = 1 \/ i = 2) by lia.
  assert (Hj' : j = 0 \/ j = 1) by lia.
  destruct Hi' as [-> | [-> | ->]]; destruct Hj' as [-> | ->]; reflexivity.
Defined.

Lemma resize_well_formed_iff_witness :
  well_formed (resize 2 3 A23) /\ 2 * 3 < UInt.modulus.
Proof.
  assert (Hmn : 2 * 3 < UInt.modulus) by (unfold UInt.modulus; lia).
  split; [|exact Hmn].
  apply (@resize_well_formed_iff Z Z Z_scalar 2 3 A23); try exact Hmn;
    unfold UInt.in_range, UInt.modulus; lia.
Defined.

Lemma scale_compose_witness :
  scale 5 (scale 2 A23) = scale (2 * 5) A23 /\ scale 1 A23 = A23.
Proof.
  apply (@scale_compose Z Z Z_scalar 2 5 A23).
  - intros x y z. simpl. lia.
  - intros x. simpl. lia.
Defined.

Lemma write_then_read_witness :
  exists R,
    op_call_write A23 1 2 7 = Ok R /\
    well_formed R /\
    _m R = _m A23 /\ _n R = _n A23 /\
    _decomposition_type R = _decomposition_type A23 /\
    op_call R 1 2 = Ok 7 /\
    forall i' j', 0 <= i' < _m A23 -> 0 <= j' < _n A23 ->
      (i' <> 1 \/ j' <> 2) -> op_call R i' j' = op_call A23 i' j'.
Proof.
  apply (@write_then_read Z A23 1 2 7 A23_well_formed);
    simpl; lia.
Defined.

Lemma add_entrywise_witness :
  exists R,
    add 2 A23 A23 = Ok R /\
    well_formed R /\ _m R = _m A23 /\ _n R = _n A23 /\
    forall i j, 0 <= i < _m A23 -> 0 <= j < _n A23 ->
      exists a b,
        op_call A23 i j = Ok a /\ op_call A23 i j = Ok b /\
        op_call R i j = Ok (s_add a (s_mul 2 b)).
Proof.
  apply (@add_entrywise Z Z Z_scalar 2 A23 A23
           A23_well_formed A23_well_formed); reflexivity.
Defined.

Lemma storage_ok_kept_witness :
  storage_ok (resize 3 2 A23) /\ storage_ok (scale 2 A23) /\
  storage_ok (op_assign A23 row12).
Proof.
  assert (Hrow : storage_ok row12).
  { unfold storage_ok, UInt.in_range, UInt.modulus.
    repeat split; simpl; lia. }
  destruct (@storage_ok_kept Z Z Z_scalar A23 row12 3 2 0 0 2 7 NONE
              A23_storage_ok Hrow)
    as (_ & Hresize & _ & Hscale & _ & Hassign & _);
    [unfold UInt.in_range, UInt.modulus; lia
    |unfold UInt.in_range, UInt.modulus; lia|].
  split; [exact Hresize|]. split; [exact Hscale | exact Hassign].
Defined.

Lemma access_offset_modulo_witness :
  exists y,
    _val A23 !! Z.to_nat ((1 * _n A23 + 2) mod 2 ^ 32) = Some y /\
    op_call A23 1 2 = Ok y.
Proof.
  apply (@access_offset_modulo Z A23 1 2);
    try (unfold UInt.in_range, UInt.modulus; simpl; lia); reflexivity.
Defined.

Lemma empty_matrix_rejects_witness :
  _val (DenseMatrix_ctor (T:=Z) 0 3) = [] /\
  op_call (DenseMatrix_ctor (T:=Z) 0 3) 0 0 = Err AssertionFailed /\
  transpose (DenseMatrix_ctor (T:=Z) 0 3) 0 0 = Err AssertionFailed /\
  min (DenseMatrix_ctor (T:=Z) 0 3) = Err AssertionFailed /\
  max (DenseMatrix_ctor (T:=Z) 0 3) = Err AssertionFailed /\
  l1_norm (DenseMatrix_ctor (T:=Z) 0 3) = Err AssertionFailed /\
  linfty_norm (DenseMatrix_ctor (T:=Z) 0 3) = Err AssertionFailed.
Proof.
  apply (@empty_matrix_rejects Z Z Z_scalar (DenseMatrix_ctor 0 3) 0 0).
  - unfold storage_ok, UInt.in_range, UInt.modulus.
    repeat split; simpl; lia.
  - left. reflexivity.
Defined.

Lemma swap_symmetric_witness :
  swap 0 1 (<[0%nat := lu_factored]> {[1%nat := A23]})
  = swap 1 0 (<[0%nat := lu_factored]> {[1%nat := A23]}) /\
  swap 0 0 (<[0%nat := lu_factored]> {[1%nat := A23]})
  = <[0%nat := lu_factored]> {[1%nat := A23]} /\
  (map_Forall (fun _ M => storage_ok M)
     (<[0%nat := lu_factored]> {[1%nat := A23]} : gmap nat (DenseMatrix Z)) ->
   map_Forall (fun _ M => storage_ok M)
     (swap 0 1 (<[0%nat := lu_factored]> {[1%nat := A23]}))).
Proof.
  apply (@swap_symmetric Z 0 1
           (<[0%nat := lu_factored]> {[1%nat := A23]}) lu_factored A23);
    reflexivity.
Defined.

Lemma l1_norm_largest_column_sum_witness :
  exists r,
    l1_norm A23 = Ok r /\
    (exists j, 0 <= j < _n A23 /\ column_sum A23 j = Ok r) /\
    forall j, 0 <= j < _n A23 ->
      exists c, column_sum A23 j = Ok c /\ r_lt r c = false.
Proof.
  apply (@l1_norm_largest_column_sum Z Z Z_scalar A23
           Z_ltb_strict_total_order A23_well_formed); simpl; lia.
Defined.

Lemma linfty_norm_largest_row_sum_witness :
  exists r,
    linfty_norm A23 = Ok r /\
    (exists i, 0 <= i < _m A23 /\ row_sum A23 i = Ok r) /\
    forall i, 0 <= i < _m A23 ->
      exists c, row_sum A23 i = Ok c /\ r_lt r c = false.
Proof.
  apply (@linfty_norm_largest_row_sum Z Z Z_scalar A23
           Z_ltb_strict_total_order A23_well_formed); simpl; lia.
Defined.

Lemma linfty_is_l1_of_transpose_witness :
  is_transpose_of A23 (transposed A23) /\
  linfty_norm A23 = l1_norm (transposed A23).
Proof.
  apply (@linfty_is_l1_of_transpose Z Z Z_scalar A23 (transposed A23)).
  - simpl. lia.
  - simpl. lia.
  - exact A23_transposed_is_transpose.
Defined.

Lemma min_not_above_max_witness :
  exists lo hi,
    min A23 = Ok lo /\ max A23 = Ok hi /\
    r_lt hi lo = false /\
    (lo = hi <->
     forall x y, x ∈ _val A23 -> y ∈ _val A23 ->
       genius_real x = genius_real y).
Proof.
  apply (@min_not_above_max Z Z Z_scalar A23
           Z_ltb_strict_total_order A23_well_formed); simpl; lia.
Defined.
